(** * gcache: the memory adapter of the cache package

    A shallow embedding of [gcache_adapter_memory.go] together with the
    helpers it is built on: [memoryData] (the data map with its items),
    [memoryLru] (the LRU tracker), [memoryExpireTimes] and
    [memoryExpireSets] (the expiry index and the expiry buckets).

    Conventions of the model.
    - Cache keys ([interface{}] in Go) are integers; cache values are the
      inductive [value], which has a nil value and the two function types
      that [SetWithLock] recognises as producers.
    - Durations ([time.Duration]) are integers counting nanoseconds,
      timestamps are integers counting milliseconds; int64 arithmetic
      wraps with [wrap64].
    - [gtime.TimestampMilli()] is the parameter [now] of each operation:
      all clock reads inside one public operation see the same
      millisecond.
    - Locks are not modelled: each operation runs atomically. *)

From Stdlib Require Import ZArith Lia.
From stdpp Require Import base gmap list.

Open Scope Z_scope.
#[local] Set Warnings "-register-all".

(** ** Values, errors and int64 arithmetic *)

Abbreviation key := Z (only parsing).

(** The error returned by a producer. *)
Inductive error := ProducerError (code : Z).

(** Cache values. [VFunc] is a producer: a value of type [Func] or of
    type [func(ctx context.Context) (value interface{}, err error)]; the
    context is not modelled. *)
Inductive value :=
| VNil
| VInt (z : Z)
| VFunc (f : unit -> value * option error).

Definition is_func (v : value) : bool :=
  match v with VFunc _ => true | _ => false end.

(** Two's complement wrap-around of int64. *)
Definition wrap64 (z : Z) : Z := Z.modulo (z + 2 ^ 63) (2 ^ 64) - 2 ^ 63.

(** ValueBox: [gvar.New].
    Modelled from the spec: package gvar is not among the sources. A
    ValueBox built by [gvar.New] from a value is a non-null box carrying
    that value (§4.6: [Get] returns null only on a miss or on an expired
    entry, and [Contains] is [Get(k) != null]). The null [*gvar.Var] is
    [None]. *)
Definition gvar_New (v : value) : option value := Some v.

(** Effects visible outside the data structures: a call of a producer. *)
Inductive effect := ProducerCalled.

(** ** memoryData *)

(** [memoryDataItem]: value and expiry timestamp in milliseconds. *)
Record memoryDataItem := { v : value; e : Z }.

(** [IsExpired]: [item.e < gtime.TimestampMilli()]. *)
Definition IsExpired (item : memoryDataItem) (now : Z) : bool := e item <? now.

Section memoryData.
Context (now : Z).

(** [Update]: replaces the value and keeps the expiry. *)
Definition md_Update (d : gmap key memoryDataItem) (k : key) (val : value)
    : (value * bool) * gmap key memoryDataItem :=
  match d !! k with
  | Some item => ((v item, true), <[k := {| v := val; e := e item |}]> d)
  | None => ((VNil, false), d)
  end.

(** [Remove]: removed keys (in argument order), value of the last
    removed item, new map. *)
Fixpoint md_Remove_go (d : gmap key memoryDataItem) (keys : list key)
    (removed : list key) (last : value)
    : list key * value * gmap key memoryDataItem :=
  match keys with
  | [] => (removed, last, d)
  | k :: ks =>
      match d !! k with
      | Some item => md_Remove_go (delete k d) ks (removed ++ [k]) (v item)
      | None => md_Remove_go d ks removed last
      end
  end.

Definition md_Remove (d : gmap key memoryDataItem) (keys : list key) :=
  md_Remove_go d keys [] VNil.

(** The items that the snapshot views keep: [v.e > nowMilli]. *)
Definition md_live (d : gmap key memoryDataItem) : gmap key memoryDataItem :=
  filter (λ kv : key * memoryDataItem, now < e kv.2) d.

(** [Data], [Keys], [Values] and [Size]. A Go map is iterated in some
    order; [map_to_list] fixes one. *)
Definition md_Data (d : gmap key memoryDataItem) : gmap key value :=
  v <$> md_live d.

Definition md_Keys (d : gmap key memoryDataItem) : list key :=
  (map_to_list (md_live d)).*1.

Definition md_Values (d : gmap key memoryDataItem) : list value :=
  (λ kv : key * memoryDataItem, v kv.2) <$> map_to_list (md_live d).

Definition md_Size (d : gmap key memoryDataItem) : nat := size (md_live d).

Definition md_Get (d : gmap key memoryDataItem) (k : key) : option memoryDataItem :=
  d !! k.

Definition md_Set (d : gmap key memoryDataItem) (k : key) (item : memoryDataItem) :=
  <[k := item]> d.

Definition md_Delete (d : gmap key memoryDataItem) (k : key) := delete k d.

(** [UpdateExpire]: replaces the expiry and keeps the value; returns the
    old remaining duration [time.Duration(item.e-now) * time.Millisecond],
    or [-1] for an absent key. *)
Definition md_UpdateExpire (d : gmap key memoryDataItem) (k : key) (expireTime : Z)
    : Z * gmap key memoryDataItem :=
  match d !! k with
  | Some item =>
      (wrap64 (wrap64 (e item - now) * 1000000), <[k := {| v := v item; e := expireTime |}]> d)
  | None => (-1, d)
  end.


(** [SetWithLock]: the compute-if-absent of the data map. The trace
    records the producer call. *)
Definition md_SetWithLock (d : gmap key memoryDataItem) (k : key) (val : value)
    (expireTimestamp : Z)
    : (value * option error) * gmap key memoryDataItem * list effect :=
  (* after the double check: call a producer, or store the plain value *)
  let store := match val with
    | VFunc f =>
        match f tt with
        | (_, Some err) => ((VNil, Some err), d, [ProducerCalled])
        | (VNil, None) => ((VNil, None), d, [ProducerCalled])
        | (r, None) =>
            ((r, None), <[k := {| v := r; e := expireTimestamp |}]> d, [ProducerCalled])
        end
    | _ => ((val, None), <[k := {| v := val; e := expireTimestamp |}]> d, [])
    end in
  match d !! k with
  | Some item => if negb (IsExpired item now) then ((v item, None), d, []) else store
  | None => store
  end.
End memoryData.

(** ** memoryLru *)

(** [memoryLru]: capacity, the keys of the side map [data] (key to list
    element), and the key list [list], most recently used first. *)
Record memoryLru := { cap : Z; ldata : gset key; llist : list key }.

(** [glist.List.Remove] of the element holding [k]. *)
Fixpoint list_remove (k : key) (l : list key) : list key :=
  match l with
  | [] => []
  | x :: xs => if decide (x = k) then xs else x :: list_remove k xs
  end.

(** [glist.List.PopBack]: the last key and the list without it. *)
Definition list_pop_back (l : list key) : option key * list key :=
  match last l with
  | Some x => (Some x, removelast l)
  | None => (None, l)
  end.

(** The tail of [doSaveAndEvict]: push the active key to the front of
    [lst] (the list after the old element is removed), then evict the back
    key when the side map outgrows the capacity. *)
Definition lru_pushFront (l : memoryLru) (k : key) (lst : list key) : option key * memoryLru :=
  let lst := k :: lst in
  let dat := {[k]} ∪ ldata l in
  if Z.of_nat (size dat) <=? cap l then (None, {| cap := cap l; ldata := dat; llist := lst |})
  else
    match list_pop_back lst with
    | (Some x, lst') => (Some x, {| cap := cap l; ldata := dat ∖ {[x]}; llist := lst' |})
    | (None, lst') => (None, {| cap := cap l; ldata := dat; llist := lst' |})
    end.

(** [doSaveAndEvict]. The element of [key] has no [Prev()] exactly when it
    is the head of the list. *)
Definition doSaveAndEvict (l : memoryLru) (k : key) : option key * memoryLru :=
  if bool_decide (k ∈ ldata l) then
    (* already on top of the list: no move *)
    if bool_decide (head (llist l) = Some k) then (None, l)
    else lru_pushFront l k (list_remove k (llist l))
  else lru_pushFront l k (llist l).

(** [SaveAndEvict]: evicted keys, in order. *)
Fixpoint SaveAndEvict (l : memoryLru) (keys : list key) : list key * memoryLru :=
  match keys with
  | [] => ([], l)
  | k :: ks =>
      let '(ev, l1) := doSaveAndEvict l k in
      let '(evs, l2) := SaveAndEvict l1 ks in
      (match ev with Some x => x :: evs | None => evs end, l2)
  end.

(** [Remove] of the LRU. *)
Fixpoint lru_Remove (l : memoryLru) (keys : list key) : memoryLru :=
  match keys with
  | [] => l
  | k :: ks =>
      let l1 := if bool_decide (k ∈ ldata l)
                then {| cap := cap l; ldata := ldata l ∖ {[k]}; llist := list_remove k (llist l) |}
                else l in
      lru_Remove l1 ks
  end.

(** [Clear] of the LRU. *)
Definition lru_Clear (l : memoryLru) : memoryLru :=
  {| cap := cap l; ldata := ∅; llist := [] |}.

(** ** Expiry index ([memoryExpireTimes]) and buckets ([memoryExpireSets]) *)

(** [memoryExpireTimes.Get]: the zero value 0 for an absent key. *)
Definition et_Get (times : gmap key Z) (k : key) : Z := default 0 (times !! k).

(** [memoryExpireSets.GetOrNew]. *)
Definition es_GetOrNew (sets : gmap Z (gset key)) (b : Z) : gset key :=
  default ∅ (sets !! b).

(** [makeExpireKey]: [int64(math.Ceil(float64(expire/1000)+1) * 1000)].
    [expire/1000] is Go's integer division, truncating toward zero
    ([Z.quot]); the float64 steps (conversion, [+1], [Ceil] of an integral
    value, [* 1000]) are exact while the result stays below 2^53 in
    magnitude, i.e. for every [expire] in [[-2^53 + 2000, 2^53 - 2000]]. *)
Definition makeExpireKey (expire : Z) : Z := (Z.quot expire 1000 + 1) * 1000.

(** One event of the drain phase of [syncEventAndClearExpired]. *)
Definition drain_step (idx : gmap key Z * gmap Z (gset key)) (ev : key * Z)
    : gmap key Z * gmap Z (gset key) :=
  let '(times, sets) := idx in
  let '(k, ex) := ev in
  let oldExpireTime := et_Get times k in
  let newExpireTime := makeExpireKey ex in
  if decide (newExpireTime = oldExpireTime) then (times, sets)
  else
    let sets := <[newExpireTime := {[k]} ∪ es_GetOrNew sets newExpireTime]> sets in
    let sets := if decide (oldExpireTime = 0) then sets
                else <[oldExpireTime := es_GetOrNew sets oldExpireTime ∖ {[k]}]> sets in
    (<[k := newExpireTime]> times, sets).

(** The drain phase: pop every event, front first. *)
Definition drain (idx : gmap key Z * gmap Z (gset key)) (events : list (key * Z)) :=
  fold_left drain_step events idx.

(** ** AdapterMemory *)

Record AdapterMemory := {
  data : gmap key memoryDataItem;
  expireTimes : gmap key Z;
  expireSets : gmap Z (gset key);
  lru : option memoryLru;          (* nil unless created with a capacity *)
  eventList : list (key * Z);      (* [adapterMemoryEvent]s, front first *)
  closed : bool
}.

Definition with_data (d : gmap key memoryDataItem) (c : AdapterMemory) : AdapterMemory :=
  {| data := d; expireTimes := expireTimes c; expireSets := expireSets c;
     lru := lru c; eventList := eventList c; closed := closed c |}.
Definition with_lru (l : option memoryLru) (c : AdapterMemory) : AdapterMemory :=
  {| data := data c; expireTimes := expireTimes c; expireSets := expireSets c;
     lru := l; eventList := eventList c; closed := closed c |}.
Definition with_events (evs : list (key * Z)) (c : AdapterMemory) : AdapterMemory :=
  {| data := data c; expireTimes := expireTimes c; expireSets := expireSets c;
     lru := lru c; eventList := evs; closed := closed c |}.
Definition with_index (times : gmap key Z) (sets : gmap Z (gset key)) (c : AdapterMemory)
    : AdapterMemory :=
  {| data := data c; expireTimes := times; expireSets := sets;
     lru := lru c; eventList := eventList c; closed := closed c |}.
Definition with_closed (b : bool) (c : AdapterMemory) : AdapterMemory :=
  {| data := data c; expireTimes := expireTimes c; expireSets := expireSets c;
     lru := lru c; eventList := eventList c; closed := b |}.

(** The operations run in a monad that reads the clock ([now], in
    milliseconds), threads the adapter and records producer calls. *)
Definition M (A : Type) : Type := Z -> AdapterMemory -> A * AdapterMemory * list effect.

Global Instance M_ret : MRet M := λ A a now c, (a, c, []).
Global Instance M_bind : MBind M := λ A B f m now c,
  let '(a, c1, t1) := m now c in
  let '(b, c2, t2) := f a now c1 in
  (b, c2, t1 ++ t2).

Definition clock : M Z := λ now c, (now, c, []).
Definition get : M AdapterMemory := λ now c, (c, c, []).
Definition put (c : AdapterMemory) : M unit := λ now _, (tt, c, []).
Definition modify (f : AdapterMemory -> AdapterMemory) : M unit := λ now c, (tt, f c, []).
Definition emit (tr : list effect) : M unit := λ now c, (tt, c, tr).

Fixpoint forM_ {A} (xs : list A) (f : A -> M unit) : M unit :=
  match xs with
  | [] => mret tt
  | x :: xs => f x;; forM_ xs f
  end.

(** [defaultMaxExpire]: the expiry of an item that never expires. *)
Definition defaultMaxExpire : Z := 9223372036854.

Definition doNewAdapterMemory : AdapterMemory :=
  {| data := ∅; expireTimes := ∅; expireSets := ∅; lru := None;
     eventList := []; closed := false |}.

Definition NewAdapterMemory : AdapterMemory := doNewAdapterMemory.

Definition newMemoryLru (c : Z) : memoryLru := {| cap := c; ldata := ∅; llist := [] |}.

Definition NewAdapterMemoryLru (c : Z) : AdapterMemory :=
  with_lru (Some (newMemoryLru c)) doNewAdapterMemory.

(** [getInternalExpire]: [duration.Nanoseconds()/1000000] truncates. *)
Definition getInternalExpire (duration : Z) : M Z :=
  if decide (duration = 0) then mret defaultMaxExpire
  else now ← clock; mret (wrap64 (now + Z.quot duration 1000000)).

Definition pushEvents (evs : list (key * Z)) : M unit :=
  modify (λ c, with_events (eventList c ++ evs) c).

(** [doRemove]: removes the keys from the data map and emits one event
    [now - 1000] per removed key; returns the last removed value. *)
Definition doRemove (keys : list key) : M (option value) :=
  c ← get; now ← clock;
  let '(removedKeys, val, d) := md_Remove (data c) keys in
  put (with_data d c);;
  pushEvents ((λ k, (k, wrap64 (now - 1000))) <$> removedKeys);;
  mret (gvar_New val).

(** [handleLruKey]: touch the keys, remove the evicted ones. *)
Definition handleLruKey (keys : list key) : M unit :=
  c ← get;
  match lru c with
  | None => mret tt
  | Some l =>
      let '(evictedKeys, l') := SaveAndEvict l keys in
      put (with_lru (Some l') c);;
      match evictedKeys with
      | [] => mret tt
      | _ => _ ← doRemove evictedKeys; mret tt
      end
  end.

(** [Set]: always returns a nil error; the deferred [handleLruKey] runs
    last. *)
Definition Set_ (k : key) (val : value) (duration : Z) : M (option error) :=
  expireTime ← getInternalExpire duration;
  modify (λ c, with_data (md_Set (data c) k {| v := val; e := expireTime |}) c);;
  pushEvents [(k, expireTime)];;
  handleLruKey [k];;
  mret None.

(** [Get]: the null [*gvar.Var] is [None]. *)
Definition Get (k : key) : M (option value) :=
  c ← get; now ← clock;
  match md_Get (data c) k with
  | Some item =>
      if negb (IsExpired item now) then handleLruKey [k];; mret (gvar_New (v item))
      else mret None
  | None => mret None
  end.

Definition Contains (k : key) : M bool :=
  r ← Get k;
  mret (match r with Some _ => true | None => false end).

(** [GetExpire]: [time.Duration(item.e-now) * time.Millisecond], in
    nanoseconds; [-1] for an absent key. *)
Definition GetExpire (k : key) : M Z :=
  c ← get;
  match md_Get (data c) k with
  | Some item =>
      handleLruKey [k];;
      now ← clock;
      mret (wrap64 (wrap64 (e item - now) * 1000000))
  | None => mret (-1)
  end.

Definition doSetWithLockCheck (k : key) (val : value) (duration : Z)
    : M (option value * option error) :=
  expireTimestamp ← getInternalExpire duration;
  c ← get; now ← clock;
  let '(r, d, tr) := md_SetWithLock now (data c) k val expireTimestamp in
  put (with_data d c);;
  emit tr;;
  pushEvents [(k, expireTimestamp)];;
  mret (gvar_New r.1, r.2).

Definition SetIfNotExist (k : key) (val : value) (duration : Z) : M (bool * option error) :=
  Contains k ≫= λ isContained : bool,
  res ← (if isContained then mret (false, None)
         else r ← doSetWithLockCheck k val duration;
              match r.2 with
              | Some err => mret (false, Some err)
              | None => mret (true, None)
              end : M (bool * option error));
  handleLruKey [k];;
  mret res.

Definition Remove (keys : list key) : M (option value) :=
  r ← doRemove keys;
  modify (λ c, with_lru (option_map (λ l, lru_Remove l keys) (lru c)) c);;
  mret r.

(** [Update]: old value boxed, and whether the key existed. *)
Definition Update (k : key) (val : value) : M (option value * bool) :=
  c ← get;
  let '((old, existed), d) := md_Update (data c) k val in
  put (with_data d c);;
  (if existed then handleLruKey [k] else mret tt);;
  mret (gvar_New old, existed).

Definition Size : M nat := c ← get; now ← clock; mret (md_Size now (data c)).
Definition Data : M (gmap key value) := c ← get; now ← clock; mret (md_Data now (data c)).
Definition Keys : M (list key) := c ← get; now ← clock; mret (md_Keys now (data c)).
Definition Values : M (list value) := c ← get; now ← clock; mret (md_Values now (data c)).

Definition Clear : M unit :=
  modify (λ c, with_lru (option_map lru_Clear (lru c)) (with_data ∅ c)).

Definition Close : M unit := modify (with_closed true).

(** [deleteExpiredKey]. *)
Definition deleteExpiredKey (k : key) : M unit :=
  modify (λ c, with_index (delete k (expireTimes c)) (expireSets c)
                 (with_data (md_Delete (data c) k) c)).

(** [syncEventAndClearExpired]: exits at once when closed; otherwise the
    drain phase, then the sweep of the five buckets before the current
    one. *)
Definition syncEventAndClearExpired : M unit :=
  c ← get;
  if closed c then mret tt else
  let '(times, sets) := drain (expireTimes c, expireSets c) (eventList c) in
  put (with_events [] (with_index times sets c));;
  now ← clock;
  let currentEk := makeExpireKey now in
  forM_ [1; 2; 3; 4; 5] (λ i,
    let expireTime := currentEk - i * 1000 in
    c ← get;
    match expireSets c !! expireTime with
    | Some expireSet =>
        forM_ (elements expireSet) (λ k,
          deleteExpiredKey k;;
          modify (λ c, with_lru (option_map (λ l, lru_Remove l [k]) (lru c)) c));;
        modify (λ c, with_index (expireTimes c) (delete expireTime (expireSets c)) c)
    | None => mret tt
    end).


(** [UpdateExpire]: the event and the touch happen when the returned old
    duration is not [-1]. *)
Definition UpdateExpire (k : key) (duration : Z) : M Z :=
  newExpireTime ← getInternalExpire duration;
  c ← get; now ← clock;
  let '(oldDuration, d) := md_UpdateExpire now (data c) k newExpireTime in
  put (with_data d c);;
  (if bool_decide (oldDuration = -1) then mret tt
   else pushEvents [(k, newExpireTime)];; handleLruKey [k]);;
  mret oldDuration.

(** [SetIfNotExistFunc]: [f] is called outside the data map's lock and its
    result, whatever it is, is handed to [doSetWithLockCheck]. *)
Definition SetIfNotExistFunc (k : key) (f : unit -> value * option error) (duration : Z)
    : M (bool * option error) :=
  Contains k ≫= λ isContained : bool,
  res ← (if isContained then mret (false, None)
         else emit [ProducerCalled];;
              match f tt with
              | (_, Some err) => mret (false, Some err)
              | (value, None) =>
                  r ← doSetWithLockCheck k value duration;
                  match r.2 with
                  | Some err => mret (false, Some err)
                  | None => mret (true, None)
                  end
              end : M (bool * option error));
  handleLruKey [k];;
  mret res.

(** [SetIfNotExistFuncLock]: [f] itself is handed to [doSetWithLockCheck],
    which calls it under the lock. *)
Definition SetIfNotExistFuncLock (k : key) (f : unit -> value * option error) (duration : Z)
    : M (bool * option error) :=
  Contains k ≫= λ isContained : bool,
  res ← (if isContained then mret (false, None)
         else r ← doSetWithLockCheck k (VFunc f) duration;
              match r.2 with
              | Some err => mret (false, Some err)
              | None => mret (true, None)
              end : M (bool * option error));
  handleLruKey [k];;
  mret res.

(** [GetOrSet]. *)
Definition GetOrSet (k : key) (val : value) (duration : Z) : M (option value * option error) :=
  Get k ≫= λ r : option value,
  res ← (match r with
         | None => doSetWithLockCheck k val duration
         | Some _ => mret (r, None)
         end : M (option value * option error));
  handleLruKey [k];;
  mret res.

(** [GetOrSetFunc]: on a miss [f] is called outside the lock; an error or
    a nil result is returned as is, without writing. *)
Definition GetOrSetFunc (k : key) (f : unit -> value * option error) (duration : Z)
    : M (option value * option error) :=
  Get k ≫= λ r : option value,
  res ← (match r with
         | None =>
             emit [ProducerCalled];;
             match f tt with
             | (_, Some err) => mret (None, Some err)
             | (VNil, None) => mret (None, None)
             | (value, None) => doSetWithLockCheck k value duration
             end
         | Some _ => mret (r, None)
         end : M (option value * option error));
  handleLruKey [k];;
  mret res.

(** [GetOrSetFuncLock]: on a miss [f] itself is handed to
    [doSetWithLockCheck]. *)
Definition GetOrSetFuncLock (k : key) (f : unit -> value * option error) (duration : Z)
    : M (option value * option error) :=
  Get k ≫= λ r : option value,
  res ← (match r with
         | None => doSetWithLockCheck k (VFunc f) duration
         | Some _ => mret (r, None)
         end : M (option value * option error));
  handleLruKey [k];;
  mret res.

(** [Cache] over the memory adapter: the [Must*] wrappers panic with the
    error of the wrapped call. *)
Inductive outcome (A : Type) := Returned (a : A) | Panicked (err : error).
Arguments Returned {A} a.
Arguments Panicked {A} err.

Definition must {A} (m : M (A * option error)) : M (outcome A) :=
  r ← m;
  match r.2 with
  | Some err => mret (Panicked err)
  | None => mret (Returned r.1)
  end.

Definition MustGetOrSet (k : key) (val : value) (duration : Z) : M (outcome (option value)) :=
  must (GetOrSet k val duration).

Definition MustGetOrSetFunc (k : key) (f : unit -> value * option error) (duration : Z)
    : M (outcome (option value)) :=
  must (GetOrSetFunc k f duration).

Definition MustGetOrSetFuncLock (k : key) (f : unit -> value * option error) (duration : Z)
    : M (outcome (option value)) :=
  must (GetOrSetFuncLock k f duration).

(** ** Statements of the specification *)

(** The bucket key as the specification writes it:
    ⌈(expiryMs ÷ 1000) + 1⌉ × 1000 with exact division. *)
Definition spec_ExpiryBucketKey (expiryMs : Z) : Z := (- ((- expiryMs) / 1000) + 1) * 1000.

(** The index invariants 2–4: a key of the expiry index is in the bucket
    it maps to, a key of a bucket is mapped to that bucket by the index,
    and no key is in two buckets. *)
Definition idx_inv (idx : gmap key Z * gmap Z (gset key)) : Prop :=
  (∀ k b, idx.1 !! k = Some b → ∃ S, idx.2 !! b = Some S ∧ k ∈ S) ∧
  (∀ b S k, idx.2 !! b = Some S → k ∈ S → idx.1 !! k = Some b) ∧
  (∀ b1 b2 S1 S2 k, idx.2 !! b1 = Some S1 → idx.2 !! b2 = Some S2 →
     k ∈ S1 → k ∈ S2 → b1 = b2).

(** No key of the expiry index is at bucket 0, the value that
    [memoryExpireTimes.Get] also returns for an absent key. *)
Definition idx_no_zero (idx : gmap key Z * gmap Z (gset key)) : Prop :=
  ∀ k, idx.1 !! k ≠ Some 0.

(** A well-formed LRU tracker: the list has no duplicates and holds the
    keys of the side map, which has at most [cap] keys, [cap] positive. *)
Definition lru_wf (l : memoryLru) : Prop :=
  NoDup (llist l) ∧ (∀ x, x ∈ ldata l ↔ x ∈ llist l) ∧
  Z.of_nat (size (ldata l)) <= cap l ∧ 0 < cap l.

(** The LRU tracker of the cache, when there is one, is well formed and
    tracks every key of the data map (invariant 5 of the specification). *)
Definition lru_tracks (c : AdapterMemory) : Prop :=
  match lru c with
  | None => True
  | Some l => lru_wf l ∧ ∀ k, is_Some (data c !! k) → k ∈ ldata l
  end.

(** The tracker, when there is one, is well formed and tracks every key
    of the data map except possibly the keys of [U] (keys written but not
    yet touched). *)
Definition lru_tracks_except (c : AdapterMemory) (U : gset key) : Prop :=
  match lru c with
  | None => True
  | Some l => lru_wf l ∧ ∀ k, is_Some (data c !! k) → k ∈ ldata l ∨ k ∈ U
  end.

(** The keys the sweep of [syncEventAndClearExpired] visits, in order:
    the members of the buckets [ek - 1000], ..., [ek - 5000]. *)
Definition sweep_keys (sets : gmap Z (gset key)) (ek : Z) : list key :=
  concat ((λ i, match sets !! (ek - i * 1000) with Some s => elements s | None => [] end)
            <$> [1; 2; 3; 4; 5]).

(** One step of the sweep loop over a bucket: [deleteExpiredKey(key)]
    then [lru.Remove(key)]; and the whole treatment of one bucket. *)
Definition sweep_key_step (k : key) (c : AdapterMemory) : AdapterMemory :=
  with_lru (option_map (λ l, lru_Remove l [k]) (lru c))
    (with_index (delete k (expireTimes c)) (expireSets c) (with_data (md_Delete (data c) k) c)).

Definition sweep_bucket_step (b : Z) (c : AdapterMemory) : AdapterMemory :=
  match expireSets c !! b with
  | Some s =>
      let c' := fold_left (λ c k, sweep_key_step k c) (elements s) c in
      with_index (expireTimes c') (delete b (expireSets c')) c'
  | None => c
  end.

(** The keys visited when sweeping the buckets [bs] in order. *)
Definition swept_of (sets : gmap Z (gset key)) (bs : list Z) : list key :=
  concat ((λ b, match sets !! b with Some s => elements s | None => [] end) <$> bs).

(** A sequence of [Set(k, v, d)] calls, each at its own clock reading. *)
Fixpoint run_Sets (ops : list (key * value * Z * Z)) (c : AdapterMemory) : AdapterMemory :=
  match ops with
  | [] => c
  | (k, val, duration, now) :: ops' => run_Sets ops' (Set_ k val duration now c).1.2
  end.

(** The key written by one [Set] call of [run_Sets]. *)
Definition op_key (op : key * value * Z * Z) : key := op.1.1.1.

(** * Properties *)

Ltac unfold_M :=
  unfold mbind, mret, M_bind, M_ret, get, put, clock, modify, emit in *.

(** The value returned by [Get] depends only on the data map. *)
Lemma Get_result (k : key) (now : Z) (c : AdapterMemory) :
  (Get k now c).1.1 =
    match data c !! k with
    | Some item => if negb (IsExpired item now) then Some (v item) else None
    | None => None
    end.
Proof.
  unfold Get, md_Get. unfold_M. simpl.
  destruct (data c !! k) as [item|]; simpl; [|reflexivity].
  destruct (negb (IsExpired item now)); simpl; [|reflexivity].
  destruct (handleLruKey [k] now c) as [[[] c'] t]. reflexivity.
Qed.

Lemma Contains_result (k : key) (now : Z) (c : AdapterMemory) :
  (Contains k now c).1.1 = match (Get k now c).1.1 with Some _ => true | None => false end.
Proof.
  unfold Contains. unfold_M.
  destruct (Get k now c) as [[r c'] t]. reflexivity.
Qed.

Lemma md_live_delete_expired (now : Z) (d : gmap key memoryDataItem) (k : key) item :
  d !! k = Some item → e item <= now → md_live now (delete k d) = md_live now d.
Proof.
  intros Hk He. unfold md_live. apply map_filter_delete_not.
  intros y Hy. rewrite Hk in Hy. injection Hy as <-. simpl. lia.
Qed.

(** ** C10: at the instant [e = now] the read path and the snapshots disagree *)

(** C10. When an entry's expiry timestamp equals the current millisecond,
    [Get] returns its value and [Contains] is true, while [Keys], [Data],
    [Values] and [Size] are those of the cache without the entry: the key
    is not in [Keys] and not counted by [Size]. *)
Theorem Get_live_Keys_exclude_at_expiry (c : AdapterMemory) (k : key)
    (item : memoryDataItem) (now : Z) :
  data c !! k = Some item → e item = now →
  (Get k now c).1.1 = Some (v item) ∧ (Contains k now c).1.1 = true ∧
  (k ∉ (Keys now c).1.1) ∧ (Data now c).1.1 !! k = None ∧
  (Size now c).1.1 = (Size now (with_data (delete k (data c)) c)).1.1 ∧
  (Keys now c).1.1 = (Keys now (with_data (delete k (data c)) c)).1.1 ∧
  (Values now c).1.1 = (Values now (with_data (delete k (data c)) c)).1.1 ∧
  (Data now c).1.1 = (Data now (with_data (delete k (data c)) c)).1.1.
Proof.
  intros Hk He.
  assert (Hget : (Get k now c).1.1 = Some (v item)).
  { rewrite Get_result, Hk. unfold IsExpired. rewrite He, Z.ltb_irrefl. reflexivity. }
  assert (Hdel : md_live now (delete k (data c)) = md_live now (data c))
    by (apply (md_live_delete_expired _ _ _ item); [exact Hk | lia]).
  assert (Hnone : md_live now (data c) !! k = None).
  { apply map_lookup_filter_None. right. intros x Hx. rewrite Hk in Hx.
    injection Hx as <-. simpl. lia. }
  split; [exact Hget|]. split; [rewrite Contains_result, Hget; reflexivity|].
  split.
  { simpl. unfold md_Keys. rewrite list_elem_of_fmap.
    intros [[k' it'] [Heq Hin]]. simpl in Heq. subst k'.
    apply elem_of_map_to_list in Hin. congruence. }
  split; [simpl; unfold md_Data; rewrite lookup_fmap, Hnone; reflexivity|].
  simpl. unfold md_Size, md_Keys, md_Values, md_Data. rewrite Hdel.
  repeat split; reflexivity.
Qed.

(** The witness of C10: an entry set for one second at 1000 ms, read at
    2000 ms. *)
Lemma Get_live_Keys_exclude_at_expiry_witness :
  let c := (Set_ 1 (VInt 5) 1000000000 1000 NewAdapterMemory).1.2 in
  (Get 1 2000 c).1.1 = Some (VInt 5) ∧ (Contains 1 2000 c).1.1 = true ∧
  (1 ∉ (Keys 2000 c).1.1) ∧ (Data 2000 c).1.1 !! 1 = None ∧
  (Size 2000 c).1.1 = (Size 2000 (with_data (delete 1 (data c)) c)).1.1 ∧
  (Keys 2000 c).1.1 = (Keys 2000 (with_data (delete 1 (data c)) c)).1.1 ∧
  (Values 2000 c).1.1 = (Values 2000 (with_data (delete 1 (data c)) c)).1.1 ∧
  (Data 2000 c).1.1 = (Data 2000 (with_data (delete 1 (data c)) c)).1.1.
Proof.
  intros c.
  apply (Get_live_Keys_exclude_at_expiry c 1 {| v := VInt 5; e := 2000 |} 2000);
    vm_compute; reflexivity.
Defined.

(** ** C5: [SetWithLock], the compute-if-absent of the data map *)

(** C5. If the key is present and unexpired, [SetWithLock] returns the
    stored value and leaves the map alone without calling the producer
    (the trace is empty); if the key is absent or expired and the producer
    fails, its error is returned unchanged and the map is unchanged; if the
    producer returns nil, nil is returned and nothing is stored. *)
Theorem SetWithLock_compute_if_absent (now : Z) (d : gmap key memoryDataItem) (k : key)
    (val : value) (expireTimestamp : Z) :
  (∀ item, d !! k = Some item → IsExpired item now = false →
     md_SetWithLock now d k val expireTimestamp = ((v item, None), d, [])) ∧
  (∀ f r err, val = VFunc f → f tt = (r, Some err) →
     (∀ item, d !! k = Some item → IsExpired item now = true) →
     md_SetWithLock now d k val expireTimestamp = ((VNil, Some err), d, [ProducerCalled])) ∧
  (∀ f, val = VFunc f → f tt = (VNil, None) →
     (∀ item, d !! k = Some item → IsExpired item now = true) →
     md_SetWithLock now d k val expireTimestamp = ((VNil, None), d, [ProducerCalled])).
Proof.
  unfold md_SetWithLock. split; [|split].
  - intros item Hk Hexp. rewrite Hk, Hexp. reflexivity.
  - intros f r err -> Hf Habs. rewrite Hf.
    destruct (d !! k) as [item|] eqn:Hk; [|destruct r; reflexivity].
    rewrite (Habs item eq_refl). destruct r; reflexivity.
  - intros f -> Hf Habs. rewrite Hf.
    destruct (d !! k) as [item|] eqn:Hk; [|reflexivity].
    rewrite (Habs item eq_refl). reflexivity.
Qed.

(** The witness of C5: key 1 live until 5000, key 2 absent. *)
Lemma SetWithLock_compute_if_absent_witness :
  let d := <[1 := {| v := VInt 9; e := 5000 |}]> (∅ : gmap key memoryDataItem) in
  md_SetWithLock 1000 d 1 (VInt 3) 7000 = ((VInt 9, None), d, []) ∧
  md_SetWithLock 1000 d 2 (VFunc (λ _, (VInt 4, Some (ProducerError 7)))) 7000
    = ((VNil, Some (ProducerError 7)), d, [ProducerCalled]) ∧
  md_SetWithLock 1000 d 2 (VFunc (λ _, (VNil, None))) 7000
    = ((VNil, None), d, [ProducerCalled]).
Proof.
  intros d.
  destruct (SetWithLock_compute_if_absent 1000 d 1 (VInt 3) 7000) as [H1 _].
  destruct (SetWithLock_compute_if_absent 1000 d 2
              (VFunc (λ _, (VInt 4, Some (ProducerError 7)))) 7000) as [_ [H2 _]].
  destruct (SetWithLock_compute_if_absent 1000 d 2 (VFunc (λ _, (VNil, None))) 7000)
    as [_ [_ H3]].
  split; [|split].
  - apply (H1 {| v := VInt 9; e := 5000 |}); vm_compute; reflexivity.
  - eapply H2; [reflexivity | reflexivity |].
    intros item Hi. vm_compute in Hi. discriminate.
  - eapply H3; [reflexivity | reflexivity |].
    intros item Hi. vm_compute in Hi. discriminate.
Defined.

(** ** C4: the bucket key of an expiry timestamp *)

(** C4, counterexample: at 1500 ms the code's bucket is 2000, the
    specification's formula gives 3000. *)
Lemma makeExpireKey_not_exact_ceiling :
  makeExpireKey 1500 = 2000 ∧ spec_ExpiryBucketKey 1500 = 3000.
Proof. split; reflexivity. Qed.

(** C4, amended. For an expiry timestamp with
    0 ≤ expiryMs ≤ 2^53 - 2000, the range where the code's float64 steps
    are exact, the bucket key is (⌊expiryMs / 1000⌋ + 1) × 1000: the
    smallest multiple of 1000 strictly greater than expiryMs. A timestamp
    on a second boundary gets the next boundary. *)
Theorem makeExpireKey_next_second (expiryMs : Z) :
  0 <= expiryMs → expiryMs <= 2 ^ 53 - 2000 →
  makeExpireKey expiryMs = (expiryMs / 1000 + 1) * 1000 ∧
  expiryMs < makeExpireKey expiryMs ∧ makeExpireKey expiryMs <= expiryMs + 1000 ∧
  makeExpireKey expiryMs mod 1000 = 0 ∧
  (expiryMs mod 1000 = 0 → makeExpireKey expiryMs = expiryMs + 1000).
Proof.
  intros H _. unfold makeExpireKey. rewrite Z.quot_div_nonneg by lia.
  pose proof (Z.div_mod expiryMs 1000 ltac:(lia)).
  pose proof (Z.mod_pos_bound expiryMs 1000 ltac:(lia)).
  split; [reflexivity|]. split; [lia|]. split; [lia|]. split.
  - rewrite Z.mod_mul by lia. reflexivity.
  - intros Hm. lia.
Qed.

Lemma makeExpireKey_next_second_witness :
  0 <= 2000 ∧ 2000 <= 2 ^ 53 - 2000 ∧
  makeExpireKey 2000 = (2000 / 1000 + 1) * 1000 ∧
  2000 < makeExpireKey 2000 ∧ makeExpireKey 2000 <= 2000 + 1000 ∧
  makeExpireKey 2000 mod 1000 = 0 ∧
  (2000 mod 1000 = 0 → makeExpireKey 2000 = 2000 + 1000).
Proof.
  split; [lia|]. split; [vm_compute; discriminate|].
  apply (makeExpireKey_next_second 2000); [lia | vm_compute; discriminate].
Defined.

(** ** C3: [Close] *)

(** C3, counterexample: a never-expiring entry set before [Close] is still
    returned by [Get], reported by [Contains] and counted by [Size]. *)
Lemma Close_keeps_entries :
  let c := ((Set_ 1 (VInt 5) 0;; Close) 1000 NewAdapterMemory).1.2 in
  (Get 1 1000 c).1.1 = Some (VInt 5) ∧ (Contains 1 1000 c).1.1 = true ∧
  (Size 1000 c).1.1 = 1%nat.
Proof. split; [|split]; vm_compute; reflexivity. Qed.

(** C3, amended. [Close] returns no error and only sets the closed flag;
    the public reads answer as before, and the next run of the sweeper
    exits at once, leaving the cache untouched (no drain, no sweep). *)
Theorem Close_only_stops_sweeper (c : AdapterMemory) (now : Z) :
  Close now c = (tt, with_closed true c, []) ∧
  (∀ k now', (Get k now' (with_closed true c)).1.1 = (Get k now' c).1.1) ∧
  (∀ k now', (Contains k now' (with_closed true c)).1.1 = (Contains k now' c).1.1) ∧
  (∀ now', (Size now' (with_closed true c)).1.1 = (Size now' c).1.1) ∧
  (∀ now', (Keys now' (with_closed true c)).1.1 = (Keys now' c).1.1) ∧
  (∀ now', syncEventAndClearExpired now' (with_closed true c) = (tt, with_closed true c, [])).
Proof.
  split; [reflexivity|].
  split; [intros k now'; rewrite !Get_result; reflexivity|].
  split; [intros k now'; rewrite !Contains_result, !Get_result; reflexivity|].
  split; [reflexivity|]. split; [reflexivity|].
  intros now'. reflexivity.
Qed.

(** ** C1: [Set] with a negative duration or a nil value *)

(** C1, at a clock reading of 1760000000000 ms: [Set(1, nil, 0)] stores
    the nil value for ever, so key 1 stays in [Keys] and [Data] and
    [GetExpire] is not -1; [Set(1, 5, -5s)] keeps an expired entry in the
    data map, for which [GetExpire] returns -5s instead of -1. *)
Lemma Set_nil_or_negative_keeps_entry :
  let c1 := (Set_ 1 VNil 0 1760000000000 NewAdapterMemory).1.2 in
  let c2 := (Set_ 1 (VInt 5) (-5000000000) 1760000000000 NewAdapterMemory).1.2 in
  (Keys 1760000000000 c1).1.1 = [1] ∧ (Data 1760000000000 c1).1.1 !! 1 = Some VNil ∧
  (GetExpire 1 1760000000000 c1).1.1 = 7463372036854000000 ∧
  data c2 !! 1 = Some {| v := VInt 5; e := 1759999995000 |} ∧
  (GetExpire 1 1760000000000 c2).1.1 = -5000000000.
Proof. repeat split; vm_compute; reflexivity. Qed.

(** ** C2: [GetExpire] *)

(** C2, at a clock reading of 1760000000000 ms: for a key set with
    duration 0 (expiry [defaultMaxExpire]) [GetExpire] returns the time
    left until [defaultMaxExpire], not 0. *)
Lemma GetExpire_never_expiring_not_zero :
  let c := (Set_ 1 (VInt 5) 0 1760000000000 NewAdapterMemory).1.2 in
  data c !! 1 = Some {| v := VInt 5; e := defaultMaxExpire |} ∧
  (GetExpire 1 1760000000000 c).1.1 = 7463372036854000000.
Proof. split; vm_compute; reflexivity. Qed.

(** [GetExpire] of an absent key is -1. *)
Lemma GetExpire_absent (c : AdapterMemory) (k : key) (now : Z) :
  data c !! k = None → (GetExpire k now c).1.1 = -1.
Proof. intros H. unfold GetExpire, md_Get. unfold_M. simpl. rewrite H. reflexivity. Qed.

(** ** C7: the drain phase and the index invariants *)

(** C7, code bug. The drain removes a key from its old bucket only when
    [oldExpireTime != 0], but 0 is also what [memoryExpireTimes.Get]
    returns for an absent key. Key 1 indexed at bucket 3000; an event with
    expiry -1500 moves it to bucket 0; the next event (expiry 5000) adds it
    to bucket 6000 without removing it from bucket 0, breaking invariant 4.
    The same happens through the API: at clock 1760000000000 ms,
    [Set(1, 5, 1s)], [Set(1, 5, -1760000001500ms)] (expiry -1500) and
    [Set(1, 5, 1s)], then a run of the sweeper at the same clock, leave
    key 1 in bucket 0 and in bucket 1760000002000. *)
Lemma drain_bucket_zero_breaks_index :
  let idx0 := (<[1 := 3000]> ∅, <[3000 := {[1]}]> ∅) in
  let idx1 := drain idx0 [(1, -1500); (1, 5000)] in
  let T := 1760000000000 in
  let c := run_Sets [(1, VInt 5, 1000000000, T); (1, VInt 5, - (T + 1500) * 1000000, T);
                     (1, VInt 5, 1000000000, T)] NewAdapterMemory in
  let c' := (syncEventAndClearExpired T c).1.2 in
  idx_inv idx0 ∧ ¬ idx_inv idx1 ∧
  idx1.2 !! 0 = Some {[1]} ∧ idx1.2 !! 6000 = Some {[1]} ∧ idx1.1 !! 1 = Some 6000 ∧
  expireSets c' !! 0 = Some {[1]} ∧ expireSets c' !! (T + 2000) = Some {[1]} ∧
  ¬ idx_inv (expireTimes c', expireSets c').
Proof.
  intros idx0 idx1 T c c'.
  assert (H0 : idx1.2 !! 0 = Some {[1]}) by (vm_compute; reflexivity).
  assert (H6 : idx1.2 !! 6000 = Some {[1]}) by (vm_compute; reflexivity).
  assert (H1 : idx1.1 !! 1 = Some 6000) by (vm_compute; reflexivity).
  assert (E0 : expireSets c' !! 0 = Some {[1]}) by (vm_compute; reflexivity).
  assert (E2 : expireSets c' !! (T + 2000) = Some {[1]}) by (vm_compute; reflexivity).
  split; [|split; [|split; [exact H0|split; [exact H6|split; [exact H1|split; [exact E0|split; [exact E2|]]]]]]].
  - unfold idx_inv, idx0; simpl. split; [|split].
    + intros k b Hk. rewrite lookup_insert in Hk. case_decide; [|done].
      injection Hk as <-. subst k. exists {[1]}. split; [done | set_solver].
    + intros b S k Hb Hk. rewrite lookup_insert in Hb. case_decide; [|done].
      injection Hb as <-. subst b. apply elem_of_singleton in Hk. subst k. done.
    + intros b1 b2 S1 S2 k Hb1 Hb2 _ _.
      rewrite lookup_insert in Hb1, Hb2. do 2 case_decide; subst; done.
  - intros [_ [_ H3]]. assert (0 = 6000) by (apply (H3 0 6000 {[1]} {[1]} 1); set_solver).
    lia.
  - intros [_ [_ H3]].
    assert (0 = T + 2000) by (apply (H3 0 (T + 2000) {[1]} {[1]} 1); simpl; set_solver).
    unfold T in *. lia.
Qed.

(** The third invariant follows from the second. *)
Lemma idx_inv_intro (times : gmap key Z) (sets : gmap Z (gset key)) :
  (∀ k b, times !! k = Some b → ∃ S, sets !! b = Some S ∧ k ∈ S) →
  (∀ b S k, sets !! b = Some S → k ∈ S → times !! k = Some b) →
  idx_inv (times, sets).
Proof.
  intros H1 H2. split; [exact H1|]. split; [exact H2|].
  intros b1 b2 S1 S2 k Hb1 Hb2 Hk1 Hk2. simpl in *.
  pose proof (H2 _ _ _ Hb1 Hk1). pose proof (H2 _ _ _ Hb2 Hk2). congruence.
Qed.

Lemma elem_of_default_empty (sets : gmap Z (gset key)) (b k : Z) :
  k ∈ default ∅ (sets !! b) → ∃ S, sets !! b = Some S ∧ k ∈ S.
Proof. destruct (sets !! b) as [S|]; simpl; [eauto | set_solver]. Qed.

Lemma drain_step_inv (idx : gmap key Z * gmap Z (gset key)) (ev : key * Z) :
  idx_inv idx → idx_no_zero idx → makeExpireKey ev.2 ≠ 0 →
  idx_inv (drain_step idx ev) ∧ idx_no_zero (drain_step idx ev).
Proof.
  destruct idx as [times sets], ev as [k ex]. unfold idx_no_zero. simpl.
  intros [I1 [I2 _]] Z0 Hnz. simpl in I1, I2, Z0.
  unfold drain_step, et_Get, es_GetOrNew.
  set (new := makeExpireKey ex) in *.
  destruct (times !! k) as [old|] eqn:Hk; simpl.
  - assert (Hold : old ≠ 0) by (intros ->; exact (Z0 k Hk)).
    destruct (decide (new = old)) as [Heq|Hne].
    { split; [split; [exact I1|split; [exact I2|]]|exact Z0].
      intros b1 b2 S1 S2 j Hb1 Hb2 Hj1 Hj2.
      pose proof (I2 _ _ _ Hb1 Hj1). pose proof (I2 _ _ _ Hb2 Hj2). congruence. }
    rewrite decide_False by exact Hold.
    rewrite (lookup_insert_ne sets new old) by congruence.
    split.
    + apply idx_inv_intro.
      * intros j b Hj. rewrite lookup_insert in Hj. case_decide as Hjk.
        { subst j. injection Hj as <-.
          eexists. rewrite lookup_insert_ne by congruence. rewrite lookup_insert_eq.
          split; [reflexivity | set_solver]. }
        destruct (I1 j b Hj) as [S0 [HS0 HjS0]].
        rewrite lookup_insert. case_decide as Hbo.
        { subst b. eexists. split; [reflexivity|]. rewrite HS0. simpl. set_solver. }
        rewrite lookup_insert. case_decide as Hbn.
        { subst b. eexists. split; [reflexivity|]. rewrite HS0. set_solver. }
        eauto.
      * intros b S j Hb Hj. rewrite lookup_insert in Hb. case_decide as Hbo.
        { subst b. injection Hb as <-. apply elem_of_difference in Hj as [Hj Hjk].
          apply elem_of_default_empty in Hj as [S0 [HS0 HjS0]].
          rewrite lookup_insert_ne by set_solver. exact (I2 _ _ _ HS0 HjS0). }
        rewrite lookup_insert in Hb. case_decide as Hbn.
        { subst b. injection Hb as <-. rewrite lookup_insert.
          case_decide; [congruence|].
          apply elem_of_union in Hj as [Hj|Hj]; [set_solver|].
          apply elem_of_default_empty in Hj as [S0 [HS0 HjS0]].
          exact (I2 _ _ _ HS0 HjS0). }
        pose proof (I2 _ _ _ Hb Hj) as Hjb.
        rewrite lookup_insert. case_decide; [subst j; congruence | exact Hjb].
    + intros j. simpl. rewrite lookup_insert. case_decide; [congruence | apply Z0].
  - rewrite decide_False by (intros Heq; apply Hnz; exact Heq).
    try (rewrite decide_True by reflexivity).
    split.
    + apply idx_inv_intro.
      * intros j b Hj. rewrite lookup_insert in Hj. case_decide as Hjk.
        { subst j. injection Hj as <-.
          eexists. rewrite lookup_insert_eq. split; [reflexivity | set_solver]. }
        destruct (I1 j b Hj) as [S0 [HS0 HjS0]].
        rewrite lookup_insert. case_decide as Hbn.
        { subst b. eexists. split; [reflexivity|]. rewrite HS0. set_solver. }
        eauto.
      * intros b S j Hb Hj. rewrite lookup_insert in Hb. case_decide as Hbn.
        { subst b. injection Hb as <-. rewrite lookup_insert.
          case_decide; [congruence|].
          apply elem_of_union in Hj as [Hj|Hj]; [set_solver|].
          apply elem_of_default_empty in Hj as [S0 [HS0 HjS0]].
          exact (I2 _ _ _ HS0 HjS0). }
        pose proof (I2 _ _ _ Hb Hj) as Hjb.
        rewrite lookup_insert. case_decide; [subst j; congruence | exact Hjb].
    + intros j. simpl. rewrite lookup_insert. case_decide; [congruence | apply Z0].
Qed.

(** Bucket 0 doubles as the "no bucket" answer of the expiry index. For
    events whose bucket key is not 0 (every expiry timestamp outside
    [[-1999, -1000]], in particular every non-negative one), the drain
    phase preserves the index invariants 2–4 together with "no key is
    indexed at bucket 0". *)
Theorem drain_preserves_index_inv (idx : gmap key Z * gmap Z (gset key))
    (events : list (key * Z)) :
  idx_inv idx → idx_no_zero idx →
  Forall (λ ev : key * Z, makeExpireKey ev.2 ≠ 0) events →
  idx_inv (drain idx events) ∧ idx_no_zero (drain idx events).
Proof.
  unfold drain. revert idx.
  induction events as [|ev evs IH]; intros idx Hinv Hnz Hall; simpl; [auto|].
  apply Forall_cons in Hall as [Hev Hall].
  destruct (drain_step_inv idx ev Hinv Hnz Hev) as [Hinv' Hnz'].
  exact (IH _ Hinv' Hnz' Hall).
Qed.

Lemma drain_preserves_index_inv_witness :
  let idx0 := (<[1 := 3000]> ∅, <[3000 := {[1]}]> ∅) in
  idx_inv (drain idx0 [(1, 1500); (2, 5000)]) ∧ idx_no_zero (drain idx0 [(1, 1500); (2, 5000)]).
Proof.
  intros idx0. apply drain_preserves_index_inv.
  - unfold idx_inv, idx0; simpl. split; [|split].
    + intros k b Hk. rewrite lookup_insert in Hk. case_decide; [|done].
      injection Hk as <-. subst k. exists {[1]}. split; [done | set_solver].
    + intros b S k Hb Hk. rewrite lookup_insert in Hb. case_decide; [|done].
      injection Hb as <-. subst b. apply elem_of_singleton in Hk. subst k. done.
    + intros b1 b2 S1 S2 k Hb1 Hb2 _ _.
      rewrite lookup_insert in Hb1, Hb2. do 2 case_decide; subst; done.
  - intros k. unfold idx0; simpl. rewrite lookup_insert. case_decide; [discriminate|done].
  - repeat constructor; vm_compute; discriminate.
Defined.

(** ** The LRU tracker *)

Lemma list_remove_subset (k x : key) (l : list key) : x ∈ list_remove k l → x ∈ l.
Proof.
  induction l as [|y ys IH]; simpl; [set_solver|].
  case_decide; [set_solver|]. rewrite !elem_of_cons. naive_solver.
Qed.

Lemma list_remove_elem (k x : key) (l : list key) :
  NoDup l → x ∈ list_remove k l ↔ x ∈ l ∧ x ≠ k.
Proof.
  induction l as [|y ys IH]; simpl; intros Hnd; [set_solver|].
  apply NoDup_cons in Hnd as [Hy Hnd].
  case_decide as Hyk.
  - subst y. rewrite elem_of_cons. split; [intros Hx; split; [auto | intros ->; contradiction]|].
    intros [[->|Hx] Hne]; [contradiction | exact Hx].
  - rewrite !elem_of_cons, IH by exact Hnd. naive_solver.
Qed.

Lemma list_remove_NoDup (k : key) (l : list key) : NoDup l → NoDup (list_remove k l).
Proof.
  induction l as [|y ys IH]; simpl; intros Hnd; [constructor|].
  apply NoDup_cons in Hnd as [Hy Hnd].
  case_decide; [exact Hnd|]. constructor; [|auto].
  intros Hin. apply Hy. exact (list_remove_subset _ _ _ Hin).
Qed.

Lemma size_of_list (X : gset key) (l : list key) :
  NoDup l → (∀ y, y ∈ X ↔ y ∈ l) → size X = length l.
Proof.
  intros Hnd Hmem. rewrite <- (size_list_to_set (C:=gset key) l) by exact Hnd. f_equal.
  apply set_eq. intros y. rewrite elem_of_list_to_set. apply Hmem.
Qed.

Lemma pushFront_spec (l : memoryLru) (k : key) (lst : list key) :
  0 < cap l → NoDup (k :: lst) → (∀ y, y ∈ {[k]} ∪ ldata l ↔ y ∈ k :: lst) →
  Z.of_nat (size ({[k]} ∪ ldata l)) <= cap l + 1 →
  lru_wf (lru_pushFront l k lst).2 ∧ head (llist (lru_pushFront l k lst).2) = Some k ∧
  cap (lru_pushFront l k lst).2 = cap l ∧
  ((Z.of_nat (size ({[k]} ∪ ldata l)) <= cap l ∧
    lru_pushFront l k lst = (None, {| cap := cap l; ldata := {[k]} ∪ ldata l; llist := k :: lst |})) ∨
   (cap l < Z.of_nat (size ({[k]} ∪ ldata l)) ∧ ∃ x, last (k :: lst) = Some x ∧ x ≠ k ∧
      lru_pushFront l k lst =
        (Some x, {| cap := cap l; ldata := ({[k]} ∪ ldata l) ∖ {[x]};
                    llist := removelast (k :: lst) |}))).
Proof.
  intros Hcap Hnd Hmem Hsz.
  assert (Hlen : size ({[k]} ∪ ldata l) = length (k :: lst)) by (apply size_of_list; auto).
  unfold lru_pushFront. cbv zeta.
  destruct (Z.of_nat (size ({[k]} ∪ ldata l)) <=? cap l) eqn:Hc.
  - apply Z.leb_le in Hc. simpl.
    split; [split; [exact Hnd | split; [exact Hmem | split; [exact Hc | exact Hcap]]]|].
    split; [reflexivity|]. split; [reflexivity|]. left. split; [exact Hc | reflexivity].
  - apply Z.leb_gt in Hc.
    assert (Hne : lst ≠ []) by (intros ->; simpl in Hlen; lia).
    destruct (last (k :: lst)) as [x|] eqn:Hlast;
      [|apply last_None in Hlast; discriminate].
    pose proof Hlast as Hsplit. apply last_Some in Hsplit as [l' Hsplit].
    assert (Hrm : removelast (k :: lst) = l') by (rewrite Hsplit; apply removelast_last).
    rewrite Hsplit in Hnd. apply NoDup_app in Hnd as [Hnd' [Hdisj _]].
    assert (Hx : x ∉ l') by (intros Hin; apply (Hdisj x Hin); set_solver).
    destruct l' as [|y l''].
    { simpl in Hsplit. injection Hsplit as -> ->. contradiction. }
    simpl in Hsplit. injection Hsplit as <- Htl.
    assert (Hxk : x ≠ k) by (intros ->; apply Hx; set_solver).
    unfold list_pop_back. rewrite Hlast, Hrm. cbn [fst snd ldata llist cap head].
    assert (Hmem' : ∀ z, z ∈ ({[k]} ∪ ldata l) ∖ {[x]} ↔ z ∈ k :: l'').
    { intros z. rewrite elem_of_difference, Hmem, Htl. set_solver. }
    assert (Hxin : x ∈ {[k]} ∪ ldata l) by (apply Hmem; rewrite Htl; set_solver).
    assert (Hsz' : size (({[k]} ∪ ldata l) ∖ {[x]}) = (size ({[k]} ∪ ldata l) - 1)%nat).
    { rewrite size_difference by set_solver. rewrite size_singleton. reflexivity. }
    split; [split; [exact Hnd' | split; [exact Hmem' | split; [cbn [ldata cap]; rewrite Hsz'; lia | exact Hcap]]]|].
    split; [reflexivity|]. split; [reflexivity|].
    right. split; [exact Hc|]. exists x. split; [reflexivity|]. split; [exact Hxk|]. reflexivity.
Qed.

(** Touching a key of a well-formed tracker keeps it well formed, puts the
    key at the front, never evicts the touched key, and evicts nothing when
    the key is already tracked. *)
Lemma doSaveAndEvict_wf (l : memoryLru) (k : key) :
  lru_wf l →
  lru_wf (doSaveAndEvict l k).2 ∧ head (llist (doSaveAndEvict l k).2) = Some k ∧
  cap (doSaveAndEvict l k).2 = cap l ∧
  (∀ x, (doSaveAndEvict l k).1 = Some x → x ≠ k) ∧
  (k ∈ ldata l → (doSaveAndEvict l k).1 = None ∧ ldata (doSaveAndEvict l k).2 = ldata l).
Proof.
  intros Hwf. pose proof Hwf as [Hnd [Hmem [Hsz Hcap]]].
  unfold doSaveAndEvict. case_bool_decide as Hin.
  - case_bool_decide as Hhd.
    { split; [exact Hwf|]. split; [exact Hhd|]. split; [reflexivity|].
      split; [discriminate|]. intros _. split; reflexivity. }
    assert (Hunion : {[k]} ∪ ldata l = ldata l) by set_solver.
    destruct (pushFront_spec l k (list_remove k (llist l))) as [Hwf' [Hhd' [Hcap' Hcase]]].
    + exact Hcap.
    + constructor; [rewrite list_remove_elem by exact Hnd; naive_solver|].
      apply list_remove_NoDup, Hnd.
    + intros y. rewrite elem_of_cons, list_remove_elem by exact Hnd.
      rewrite elem_of_union, elem_of_singleton, Hmem.
      destruct (decide (y = k)); naive_solver.
    + rewrite Hunion. lia.
    + rewrite Hunion in Hcase.
      destruct Hcase as [[_ Heq] | [Hlt _]]; [|lia].
      rewrite Heq in *. simpl in *.
      split; [exact Hwf'|]. split; [exact Hhd'|]. split; [reflexivity|].
      split; [discriminate|]. intros _. split; reflexivity.
  - destruct (pushFront_spec l k (llist l)) as [Hwf' [Hhd' [Hcap' Hcase]]].
    + exact Hcap.
    + constructor; [rewrite <- Hmem; exact Hin | exact Hnd].
    + intros y. rewrite elem_of_cons, elem_of_union, elem_of_singleton, Hmem. reflexivity.
    + rewrite size_union by set_solver. rewrite size_singleton. lia.
    + split; [exact Hwf'|]. split; [exact Hhd'|]. split; [exact Hcap'|].
      split; [|intros Hk; contradiction].
      intros x Hx. destruct Hcase as [[_ Heq] | [_ [x' [_ [Hx'k Heq]]]]];
        rewrite Heq in Hx; simpl in Hx; [discriminate|]. injection Hx as <-. exact Hx'k.
Qed.

(** ** The adapter operations on the data map and the tracker *)

Lemma handleLruKey_one (k now : Z) (c : AdapterMemory) :
  data (handleLruKey [k] now c).1.2 =
    match lru c with
    | Some l => match (doSaveAndEvict l k).1 with Some x => delete x (data c) | None => data c end
    | None => data c
    end ∧
  lru (handleLruKey [k] now c).1.2 =
    match lru c with Some l => Some (doSaveAndEvict l k).2 | None => None end.
Proof.
  unfold handleLruKey, doRemove, pushEvents, md_Remove. unfold_M. simpl.
  destruct (lru c) as [l|] eqn:Hl; simpl; [|split; [reflexivity | exact Hl]].
  destruct (doSaveAndEvict l k) as [[x|] l']; simpl; [|split; reflexivity].
  destruct (data c !! x) eqn:Hx; simpl; (split; [|reflexivity]); [reflexivity|].
  symmetry. apply delete_id. exact Hx.
Qed.

(** [Set] writes the item, then touches the key. *)
Lemma Set_state (k : key) (val : value) (duration now : Z) (c : AdapterMemory) :
  let ex := (getInternalExpire duration now c).1.1 in
  (Set_ k val duration now c).1.1 = None ∧
  (Set_ k val duration now c).1.2 =
    (handleLruKey [k] now (with_events (eventList c ++ [(k, ex)])
       (with_data (<[k := {| v := val; e := ex |}]> (data c)) c))).1.2.
Proof.
  unfold Set_, getInternalExpire, pushEvents, md_Set. unfold_M. simpl.
  destruct (decide (duration = 0)); simpl;
  match goal with |- context [handleLruKey [k] now ?c1] =>
    destruct (handleLruKey [k] now c1) as [[u c2] t] end; simpl; split; reflexivity.
Qed.

(** A miss of [Get] leaves the cache alone; a hit touches the key. *)
Lemma Get_state (k : key) (now : Z) (c : AdapterMemory) :
  (Get k now c).1.2 =
    match data c !! k with
    | Some item => if negb (IsExpired item now) then (handleLruKey [k] now c).1.2 else c
    | None => c
    end.
Proof.
  unfold Get, md_Get. unfold_M. simpl.
  destruct (data c !! k) as [item|]; simpl; [|reflexivity].
  destruct (negb (IsExpired item now)); simpl; [|reflexivity].
  destruct (handleLruKey [k] now c) as [[[] c'] t]. reflexivity.
Qed.

Lemma Contains_state (k : key) (now : Z) (c : AdapterMemory) :
  (Contains k now c).1.2 = (Get k now c).1.2.
Proof.
  unfold Contains. unfold_M. destruct (Get k now c) as [[r c'] t]. reflexivity.
Qed.

(** The value returned by [GetExpire] depends only on the data map. *)
Lemma GetExpire_result (k : key) (now : Z) (c : AdapterMemory) :
  (GetExpire k now c).1.1 =
    match data c !! k with
    | Some item => wrap64 (wrap64 (e item - now) * 1000000)
    | None => -1
    end.
Proof.
  unfold GetExpire, md_Get. unfold_M. simpl.
  destruct (data c !! k) as [item|]; simpl; [|reflexivity].
  destruct (handleLruKey [k] now c) as [[[] c'] t]. reflexivity.
Qed.

Lemma Update_state (k : key) (val : value) (now : Z) (c : AdapterMemory) :
  match data c !! k with
  | Some item =>
      (Update k val now c).1.1 = (gvar_New (v item), true) ∧
      (Update k val now c).1.2 =
        (handleLruKey [k] now (with_data (<[k := {| v := val; e := e item |}]> (data c)) c)).1.2
  | None => Update k val now c = ((gvar_New VNil, false), c, [])
  end.
Proof.
  unfold Update, md_Update. unfold_M. simpl.
  destruct (data c !! k) as [item|]; simpl; [|destruct c; reflexivity].
  match goal with |- context [handleLruKey [k] now ?c1] =>
    destruct (handleLruKey [k] now c1) as [[[] c2] t] end. split; reflexivity.
Qed.

(** ** C9: [Update] *)

(** C9. On a cache whose LRU tracker (if any) tracks the keys of the data
    map, [Update(k, v')] of a present key returns the old value with
    [existed = true], stores [v'] with the old expiry timestamp, leaves
    every other key's entry alone, and so leaves [GetExpire(k)] unchanged
    at every clock reading; for an absent key it returns
    [existed = false] and changes nothing. *)
Theorem Update_replaces_value_only (c : AdapterMemory) (k : key) (val : value) (now : Z) :
  lru_tracks c →
  (∀ item, data c !! k = Some item →
     (Update k val now c).1.1 = (gvar_New (v item), true) ∧
     data (Update k val now c).1.2 !! k = Some {| v := val; e := e item |} ∧
     (∀ j, j ≠ k → data (Update k val now c).1.2 !! j = data c !! j) ∧
     (∀ now', (GetExpire k now' (Update k val now c).1.2).1.1 = (GetExpire k now' c).1.1)) ∧
  (data c !! k = None → Update k val now c = ((gvar_New VNil, false), c, [])).
Proof.
  intros Htr. pose proof (Update_state k val now c) as Hup.
  split; [|intros Hk; rewrite Hk in Hup; exact Hup].
  intros item Hk. rewrite Hk in Hup. destruct Hup as [Hres Hst].
  set (c1 := with_data (<[k := {| v := val; e := e item |}]> (data c)) c) in Hst.
  assert (Hdata : data (Update k val now c).1.2 = <[k := {| v := val; e := e item |}]> (data c)).
  { rewrite Hst. destruct (handleLruKey_one k now c1) as [Hd _]. rewrite Hd.
    unfold lru_tracks in Htr. subst c1. simpl.
    destruct (lru c) as [l|]; [|reflexivity].
    destruct Htr as [Hwf Htr].
    destruct (doSaveAndEvict_wf l k Hwf) as [_ [_ [_ [_ Hin]]]].
    destruct (Hin (Htr k ltac:(rewrite Hk; eauto))) as [-> _]. reflexivity. }
  split; [exact Hres|]. rewrite Hdata.
  split; [apply lookup_insert_eq|].
  split; [intros j Hj; apply lookup_insert_ne; congruence|].
  intros now'. rewrite !GetExpire_result, Hdata, lookup_insert_eq, Hk. reflexivity.
Qed.

Lemma Update_replaces_value_only_witness :
  let c := (Set_ 1 (VInt 5) 1000000000 1000 NewAdapterMemory).1.2 in
  (Update 1 (VInt 6) 1200 c).1.1 = (gvar_New (VInt 5), true) ∧
  data (Update 1 (VInt 6) 1200 c).1.2 !! 1 = Some {| v := VInt 6; e := 2000 |} ∧
  (∀ j, j ≠ 1 → data (Update 1 (VInt 6) 1200 c).1.2 !! j = data c !! j) ∧
  (∀ now', (GetExpire 1 now' (Update 1 (VInt 6) 1200 c).1.2).1.1 = (GetExpire 1 now' c).1.1).
Proof.
  intros c.
  destruct (Update_replaces_value_only c 1 (VInt 6) 1200) as [H _];
    [vm_compute; exact I|].
  apply (H {| v := VInt 5; e := 2000 |}). vm_compute. reflexivity.
Defined.

(** Touching the front key of the tracker changes nothing. *)
Lemma handleLruKey_front (k now : Z) (c : AdapterMemory) :
  match lru c with None => True | Some l => k ∈ ldata l ∧ head (llist l) = Some k end →
  data (handleLruKey [k] now c).1.2 = data c ∧ lru (handleLruKey [k] now c).1.2 = lru c.
Proof.
  intros Hf. destruct (handleLruKey_one k now c) as [Hd Hl]. rewrite Hd, Hl.
  destruct (lru c) as [l|]; [|split; reflexivity].
  destruct Hf as [Hin Hhd]. unfold doSaveAndEvict.
  rewrite bool_decide_eq_true_2 by exact Hin. rewrite bool_decide_eq_true_2 by exact Hhd.
  split; reflexivity.
Qed.

(** Touching a key of a well-formed tracker keeps the key's entry and
    leaves the key at the front of a well-formed tracker. *)
Lemma handleLruKey_touch (k now : Z) (c : AdapterMemory) :
  (∀ l, lru c = Some l → lru_wf l) →
  data (handleLruKey [k] now c).1.2 !! k = data c !! k ∧
  (∀ l, lru (handleLruKey [k] now c).1.2 = Some l → lru_wf l) ∧
  match lru (handleLruKey [k] now c).1.2 with
  | None => True
  | Some l => k ∈ ldata l ∧ head (llist l) = Some k
  end.
Proof.
  intros Hwf. destruct (handleLruKey_one k now c) as [Hd Hl]. rewrite Hd, Hl.
  destruct (lru c) as [l|]; [|split; [reflexivity | split; [discriminate | exact I]]].
  destruct (doSaveAndEvict_wf l k (Hwf l eq_refl)) as [Hwf' [Hhd [_ [Hev _]]]].
  split.
  - destruct (doSaveAndEvict l k).1 as [x|] eqn:Hx; [|reflexivity].
    apply lookup_delete_ne. exact (Hev x eq_refl).
  - split; [intros l' Hl'; injection Hl' as <-; exact Hwf'|].
    split; [|exact Hhd]. destruct Hwf' as [_ [Hmem _]]. apply Hmem.
    destruct (llist (doSaveAndEvict l k).2) as [|y ys]; [discriminate|].
    injection Hhd as ->. set_solver.
Qed.

Lemma SetIfNotExist_miss (k : key) (val : value) (duration now : Z) (c : AdapterMemory) :
  is_func val = false → (Get k now c).1.1 = None →
  let ex := (getInternalExpire duration now c).1.1 in
  (SetIfNotExist k val duration now c).1.1 = (true, None) ∧
  (SetIfNotExist k val duration now c).1.2 =
    (handleLruKey [k] now (with_events (eventList c ++ [(k, ex)])
       (with_data (<[k := {| v := val; e := ex |}]> (data c)) c))).1.2.
Proof.
  intros Hval Hmiss.
  assert (Hst : (Get k now c).1.2 = c).
  { rewrite Get_state. rewrite Get_result in Hmiss.
    destruct (data c !! k) as [item|]; [|reflexivity].
    destruct (negb (IsExpired item now)); [discriminate | reflexivity]. }
  assert (Hexp : ∀ item, data c !! k = Some item → IsExpired item now = true).
  { intros item Hk. rewrite Get_result, Hk in Hmiss.
    destruct (IsExpired item now); [reflexivity | discriminate]. }
  unfold SetIfNotExist. unfold_M.
  destruct (Contains k now c) as [[b c'] t] eqn:HC.
  assert (b = false /\ c' = c) as [-> ->].
  { pose proof (Contains_result k now c) as Hr. pose proof (Contains_state k now c) as Hs.
    rewrite HC in Hr, Hs. simpl in Hr, Hs. rewrite Hmiss in Hr. split; congruence. }
  unfold doSetWithLockCheck, getInternalExpire, pushEvents, md_SetWithLock. unfold_M.
  destruct val as [| z | f]; [| | discriminate]; simpl;
  destruct (decide (duration = 0)); simpl;
  (destruct (data c !! k) as [item|] eqn:Hk;
   [pose proof (Hexp item eq_refl) as Hie; unfold IsExpired in *; rewrite Hie; simpl|]);
  unfold gvar_New; cbn -[handleLruKey];
  match goal with |- context [handleLruKey [k] now ?c1] =>
    destruct (handleLruKey [k] now c1) as [[[] c2] t2] end; split; reflexivity.
Qed.

Lemma SetIfNotExist_hit (k : key) (val : value) (duration now : Z) (c : AdapterMemory) (w : value) :
  (Get k now c).1.1 = Some w →
  (SetIfNotExist k val duration now c).1.1 = (false, None) ∧
  (SetIfNotExist k val duration now c).1.2 = (handleLruKey [k] now (Get k now c).1.2).1.2.
Proof.
  intros Hhit. unfold SetIfNotExist. unfold_M.
  destruct (Contains k now c) as [[b c'] t] eqn:HC.
  assert (b = true /\ c' = (Get k now c).1.2) as [-> ->].
  { pose proof (Contains_result k now c) as Hr. pose proof (Contains_state k now c) as Hs.
    rewrite HC in Hr, Hs. simpl in Hr, Hs. rewrite Hhit in Hr. split; congruence. }
  simpl.
  match goal with |- context [handleLruKey [k] now ?c1] =>
    destruct (handleLruKey [k] now c1) as [[[] c2] t2] end; simpl; split; reflexivity.
Qed.

(** [getInternalExpire] of a non-zero duration. *)
Lemma getInternalExpire_nonzero (duration now : Z) (c : AdapterMemory) :
  duration ≠ 0 → (getInternalExpire duration now c).1.1 = wrap64 (now + Z.quot duration 1000000).
Proof.
  intros Hd. unfold getInternalExpire. rewrite decide_False by exact Hd. reflexivity.
Qed.

(** A live entry is what [Get] returns. *)
Lemma Get_live (k : key) (now : Z) (c : AdapterMemory) (val : value) (ex : Z) :
  data c !! k = Some {| v := val; e := ex |} → now <= ex → (Get k now c).1.1 = Some val.
Proof.
  intros Hk Hle. rewrite Get_result, Hk. unfold IsExpired. simpl.
  rewrite (proj2 (Z.ltb_ge ex now)) by lia. reflexivity.
Qed.

(** ** C8: two [SetIfNotExist] calls on the same key *)

(** C8, counterexample: a producer [v1] is called by the first
    [SetIfNotExist]; afterwards [Get] returns the producer's result, not
    [v1]. *)
Lemma SetIfNotExist_producer_stored :
  let v1 := VFunc (λ _, (VInt 7, None)) in
  let c1 := (SetIfNotExist 1 v1 1000000000 1000 NewAdapterMemory).1.2 in
  let c2 := (SetIfNotExist 1 (VInt 8) 1000000000 1500 c1).1.2 in
  (SetIfNotExist 1 v1 1000000000 1000 NewAdapterMemory).1.1 = (true, None) ∧
  (SetIfNotExist 1 (VInt 8) 1000000000 1500 c1).1.1 = (false, None) ∧
  (Get 1 1500 c2).1.1 = Some (VInt 7) ∧ (Get 1 1500 c2).1.1 ≠ Some v1.
Proof.
  vm_compute. split; [reflexivity|]. split; [reflexivity|]. split; [reflexivity|].
  discriminate.
Qed.

(** C8, amended. On a cache whose LRU tracker (if any) is well formed,
    for a value [v1] that is not a producer and a positive duration [d]:
    if [Get(k)] misses at [t1], then [SetIfNotExist(k, v1, d)] at [t1]
    returns [(true, nil)], [SetIfNotExist(k, v2, d)] at a clock reading
    [t2] at most the first entry's expiry returns [(false, nil)], and
    [Get(k)] at any [t3] at most that expiry returns [v1]. *)
Theorem SetIfNotExist_twice_keeps_first (c : AdapterMemory) (k : key) (v1 v2 : value)
    (d t1 t2 t3 : Z) :
  (∀ l, lru c = Some l → lru_wf l) →
  is_func v1 = false → 0 < d → (Get k t1 c).1.1 = None →
  t2 <= wrap64 (t1 + Z.quot d 1000000) → t3 <= wrap64 (t1 + Z.quot d 1000000) →
  (SetIfNotExist k v1 d t1 c).1.1 = (true, None) ∧
  (SetIfNotExist k v2 d t2 (SetIfNotExist k v1 d t1 c).1.2).1.1 = (false, None) ∧
  (Get k t3 (SetIfNotExist k v2 d t2 (SetIfNotExist k v1 d t1 c).1.2).1.2).1.1 = Some v1.
Proof.
  intros Hwf Hv Hd Hmiss Ht2 Ht3.
  set (ex := wrap64 (t1 + Z.quot d 1000000)) in *.
  destruct (SetIfNotExist_miss k v1 d t1 c Hv Hmiss) as [Hr1 Hs1].
  rewrite getInternalExpire_nonzero in Hs1 by lia. fold ex in Hs1.
  set (c1 := (SetIfNotExist k v1 d t1 c).1.2) in *.
  set (c0 := with_events (eventList c ++ [(k, ex)])
               (with_data (<[k := {| v := v1; e := ex |}]> (data c)) c)) in Hs1.
  destruct (handleLruKey_touch k t1 c0) as [Hd1 [Hwf1 _]]; [exact Hwf|].
  rewrite <- Hs1 in Hd1, Hwf1. simpl in Hd1. rewrite lookup_insert_eq in Hd1.
  assert (Hhit : (Get k t2 c1).1.1 = Some v1) by (apply (Get_live _ _ _ _ ex); [exact Hd1 | lia]).
  destruct (SetIfNotExist_hit k v2 d t2 c1 v1 Hhit) as [Hr2 Hs2].
  split; [exact Hr1|]. split; [exact Hr2|].
  rewrite Hs2, Get_state, Hd1. unfold IsExpired. simpl.
  rewrite (proj2 (Z.ltb_ge ex t2)) by lia. simpl.
  destruct (handleLruKey_touch k t2 c1 Hwf1) as [Hd2 [Hwf2 _]].
  destruct (handleLruKey_touch k t2 _ Hwf2) as [Hd3 _].
  apply (Get_live _ _ _ _ ex); [|lia]. rewrite Hd3, Hd2. exact Hd1.
Qed.

(** The witness of C8: a fresh cache, [1] set to [5] for one second at
    1000 ms, then [6] offered at 1500 ms, read at 2000 ms. *)
Lemma SetIfNotExist_twice_keeps_first_witness :
  (SetIfNotExist 1 (VInt 5) 1000000000 1000 NewAdapterMemory).1.1 = (true, None) ∧
  (SetIfNotExist 1 (VInt 6) 1000000000 1500
     (SetIfNotExist 1 (VInt 5) 1000000000 1000 NewAdapterMemory).1.2).1.1 = (false, None) ∧
  (Get 1 2000 (SetIfNotExist 1 (VInt 6) 1000000000 1500
     (SetIfNotExist 1 (VInt 5) 1000000000 1000 NewAdapterMemory).1.2).1.2).1.1 = Some (VInt 5).
Proof.
  apply (SetIfNotExist_twice_keeps_first NewAdapterMemory 1 (VInt 5) (VInt 6)
           1000000000 1000 1500 2000).
  - intros l Hl. discriminate.
  - reflexivity.
  - lia.
  - vm_compute. reflexivity.
  - vm_compute. discriminate.
  - vm_compute. discriminate.
Defined.

(** ** C6: eviction of the first written key *)

Lemma run_Sets_app (ops1 ops2 : list (key * value * Z * Z)) (c : AdapterMemory) :
  run_Sets (ops1 ++ ops2) c = run_Sets ops2 (run_Sets ops1 c).
Proof.
  revert c. induction ops1 as [|[[[k val] d] now] ops1 IH]; intros c; simpl; [reflexivity|].
  apply IH.
Qed.

(** Touching a fresh key of a tracker that is not full. *)
Lemma doSaveAndEvict_fresh_fill (C : Z) (L : list key) (k : key) :
  NoDup L → k ∉ L → Z.of_nat (length L) < C →
  doSaveAndEvict {| cap := C; ldata := list_to_set L; llist := L |} k =
    (None, {| cap := C; ldata := list_to_set (k :: L); llist := k :: L |}).
Proof.
  intros Hnd Hk Hlen. unfold doSaveAndEvict. cbn [ldata llist cap].
  rewrite bool_decide_eq_false_2 by (rewrite elem_of_list_to_set; exact Hk).
  unfold lru_pushFront. cbn [ldata llist cap].
  rewrite size_union by (intros z; rewrite elem_of_singleton, elem_of_list_to_set; naive_solver).
  rewrite size_singleton, (size_list_to_set (C:=gset key)) by exact Hnd.
  rewrite (proj2 (Z.leb_le _ _)) by lia. reflexivity.
Qed.

(** Touching a fresh key of a full tracker evicts its back key. *)
Lemma doSaveAndEvict_fresh_evict (C : Z) (L : list key) (x k : key) :
  NoDup (L ++ [x]) → k ∉ L ++ [x] → Z.of_nat (length (L ++ [x])) = C →
  doSaveAndEvict {| cap := C; ldata := list_to_set (L ++ [x]); llist := L ++ [x] |} k =
    (Some x, {| cap := C; ldata := ({[k]} ∪ list_to_set (L ++ [x])) ∖ {[x]}; llist := k :: L |}).
Proof.
  intros Hnd Hk Hlen. unfold doSaveAndEvict. cbn [ldata llist cap].
  rewrite bool_decide_eq_false_2 by (rewrite elem_of_list_to_set; exact Hk).
  unfold lru_pushFront. cbn [ldata llist cap].
  rewrite size_union by (intros z; rewrite elem_of_singleton, elem_of_list_to_set; naive_solver).
  rewrite size_singleton, (size_list_to_set (C:=gset key)) by exact Hnd.
  rewrite (proj2 (Z.leb_gt _ _)) by lia.
  unfold list_pop_back. rewrite app_comm_cons, last_snoc, removelast_last. reflexivity.
Qed.

(** [Set] of a fresh key on a tracker that is not full. *)
Lemma Set_fresh_fill (k : key) (val : value) (duration now C : Z) (L : list key)
    (c : AdapterMemory) :
  lru c = Some {| cap := C; ldata := list_to_set L; llist := L |} →
  NoDup L → k ∉ L → Z.of_nat (length L) < C →
  lru (Set_ k val duration now c).1.2 =
    Some {| cap := C; ldata := list_to_set (k :: L); llist := k :: L |} ∧
  dom (data (Set_ k val duration now c).1.2) = {[k]} ∪ dom (data c).
Proof.
  intros Hl Hnd Hk Hlen. destruct (Set_state k val duration now c) as [_ ->].
  match goal with |- context [handleLruKey [k] now ?c0] =>
    destruct (handleLruKey_one k now c0) as [Hd Hl'] end.
  rewrite Hd, Hl'. simpl. rewrite Hl, doSaveAndEvict_fresh_fill by assumption. simpl.
  split; [reflexivity|]. apply dom_insert_L.
Qed.

(** [Set] of a fresh key on a full tracker evicts the back key from the
    tracker and from the data map. *)
Lemma Set_fresh_evict (k : key) (val : value) (duration now C : Z) (L : list key) (x : key)
    (c : AdapterMemory) :
  lru c = Some {| cap := C; ldata := list_to_set (L ++ [x]); llist := L ++ [x] |} →
  NoDup (L ++ [x]) → k ∉ L ++ [x] → Z.of_nat (length (L ++ [x])) = C →
  lru (Set_ k val duration now c).1.2 =
    Some {| cap := C; ldata := ({[k]} ∪ list_to_set (L ++ [x])) ∖ {[x]}; llist := k :: L |} ∧
  dom (data (Set_ k val duration now c).1.2) = ({[k]} ∪ dom (data c)) ∖ {[x]}.
Proof.
  intros Hl Hnd Hk Hlen. destruct (Set_state k val duration now c) as [_ ->].
  match goal with |- context [handleLruKey [k] now ?c0] =>
    destruct (handleLruKey_one k now c0) as [Hd Hl'] end.
  rewrite Hd, Hl'. simpl. rewrite Hl, doSaveAndEvict_fresh_evict by assumption. simpl.
  split; [reflexivity|]. rewrite dom_delete_L, dom_insert_L. reflexivity.
Qed.

(** Sets of fresh keys that fit in the tracker push them to its front and
    evict nothing. *)
Lemma run_Sets_fill (C : Z) (ops : list (key * value * Z * Z)) (L : list key)
    (c : AdapterMemory) :
  lru c = Some {| cap := C; ldata := list_to_set L; llist := L |} →
  NoDup ((op_key <$> ops) ++ L) → Z.of_nat (length ops + length L) <= C →
  lru (run_Sets ops c) =
    Some {| cap := C; ldata := list_to_set (rev (op_key <$> ops) ++ L);
            llist := rev (op_key <$> ops) ++ L |} ∧
  dom (data (run_Sets ops c)) = list_to_set (op_key <$> ops) ∪ dom (data c).
Proof.
  revert L c. induction ops as [|[[[k val] d] now] ops IH]; intros L c Hl Hnd Hlen; simpl.
  - split; [exact Hl|]. set_solver.
  - simpl in Hnd. apply NoDup_cons in Hnd as [Hk Hnd].
    destruct (Set_fresh_fill k val d now C L c Hl) as [Hl1 Hd1];
      [apply NoDup_app in Hnd; tauto | set_solver | simpl in Hlen; lia |].
    destruct (IH (k :: L) _ Hl1) as [Hl2 Hd2].
    + change (op_key (k, val, d, now)) with k in Hk.
      apply NoDup_app in Hnd as [HndA [Hdis HndL]]. apply NoDup_app.
      split; [exact HndA|]. split; [|constructor; [set_solver | exact HndL]].
      intros z Hz Hz'. apply elem_of_cons in Hz' as [->|Hz']; [set_solver|].
      exact (Hdis z Hz Hz').
    + simpl in Hlen |- *. lia.
    + rewrite <- app_assoc. split; [exact Hl2|]. rewrite Hd2, Hd1. unfold op_key at 1. simpl.
      set_solver.
Qed.

(** Keys listed by [Keys] are keys of the data map. *)
Lemma Keys_in_data (k : key) (now : Z) (c : AdapterMemory) :
  k ∈ (Keys now c).1.1 → is_Some (data c !! k).
Proof.
  simpl. unfold md_Keys. rewrite list_elem_of_fmap.
  intros [[k' it] [Heq Hin]]. simpl in Heq. subst k'.
  apply elem_of_map_to_list, map_lookup_filter_Some in Hin as [Hin _]. eauto.
Qed.

(** C6. For a cache created with LRU capacity [C > 0], after [C + 1]
    [Set] calls on [C + 1] distinct keys and no reads, the data map holds
    exactly the keys written after the first one: the first key written,
    and only it, has been evicted, and it is absent from the data map and
    from [Keys()]. The tracker holds the other keys, the last written at
    the front. *)
Theorem LRU_evicts_first_written (C : Z) (ops : list (key * value * Z * Z)) :
  0 < C → Z.of_nat (length ops) = C + 1 → NoDup (op_key <$> ops) →
  dom (data (run_Sets ops (NewAdapterMemoryLru C))) = list_to_set (tail (op_key <$> ops)) ∧
  (∀ k0, head (op_key <$> ops) = Some k0 →
     data (run_Sets ops (NewAdapterMemoryLru C)) !! k0 = None ∧
     ∀ now, k0 ∉ (Keys now (run_Sets ops (NewAdapterMemoryLru C))).1.1) ∧
  lru (run_Sets ops (NewAdapterMemoryLru C)) =
    Some {| cap := C; ldata := list_to_set (tail (op_key <$> ops));
            llist := rev (tail (op_key <$> ops)) |}.
Proof.
  intros HC Hlen Hnd.
  destruct ops as [|op0 ops]; [simpl in Hlen; lia|].
  destruct (exists_last (l:=op0 :: ops) ltac:(discriminate)) as [ops1 [opl Hsplit]].
  rewrite Hsplit in Hlen, Hnd |- *. rewrite length_app in Hlen. simpl in Hlen.
  destruct ops1 as [|op1 ops1']; [simpl in Hlen; lia|].
  rewrite run_Sets_app. rewrite fmap_app in Hnd |- *.
  destruct opl as [[[kl vl] dl] nl]. cbn [run_Sets].
  set (k0 := op_key op1). set (K1 := op_key <$> ops1').
  assert (HK : op_key <$> op1 :: ops1' = k0 :: K1) by reflexivity.
  rewrite HK in Hnd |- *. simpl in Hnd |- *. change (op_key (kl, vl, dl, nl)) with kl in *.
  apply NoDup_cons in Hnd as [Hk0 Hnd]. apply NoDup_app in Hnd as [HndK1 [HdisK1 _]].
  assert (Hk0l : k0 ≠ kl) by (intros ->; apply Hk0; set_solver).
  assert (Hk0K : k0 ∉ K1) by set_solver.
  assert (HklK : kl ∉ K1) by (intros Hin; apply (HdisK1 kl Hin); set_solver).
  destruct (run_Sets_fill C (op1 :: ops1') [] (NewAdapterMemoryLru C)) as [Hl1 Hd1].
  - reflexivity.
  - rewrite app_nil_r, HK. constructor; assumption.
  - simpl in Hlen |- *. lia.
  - rewrite HK, app_nil_r in Hl1. rewrite HK in Hd1.
    change (rev (k0 :: K1)) with (rev K1 ++ [k0]) in Hl1.
    assert (HndL : NoDup (rev K1 ++ [k0])).
    { apply NoDup_app. split; [apply NoDup_ListNoDup, NoDup_rev, NoDup_ListNoDup, HndK1|]. split; [|constructor; [set_solver | constructor]].
      intros z Hz Hz'. apply list_elem_of_singleton in Hz'. subst z.
      apply Hk0K. apply list_elem_of_In, in_rev, list_elem_of_In, Hz. }
    assert (HrevK : ∀ z, z ∈ rev K1 ↔ z ∈ K1).
    { intros z. rewrite !list_elem_of_In. split; [apply in_rev|]. intros Hz. apply in_rev in Hz.
      exact Hz. }
    destruct (Set_fresh_evict kl vl dl nl C (rev K1) k0 (run_Sets (op1 :: ops1') (NewAdapterMemoryLru C)) Hl1)
      as [Hl2 Hd2].
    + exact HndL.
    + rewrite elem_of_app, HrevK, list_elem_of_singleton. naive_solver.
    + rewrite length_app, length_rev. simpl in Hlen |- *. unfold K1. rewrite length_fmap. lia.
    + assert (Hdom : dom (data (Set_ kl vl dl nl (run_Sets (op1 :: ops1') (NewAdapterMemoryLru C))).1.2)
                     = list_to_set (K1 ++ [kl])).
      { rewrite Hd2, Hd1. simpl. set_solver. }
      split; [exact Hdom|]. split.
      * intros k Hk. injection Hk as <-.
        assert (Hnone : data (Set_ kl vl dl nl (run_Sets (op1 :: ops1') (NewAdapterMemoryLru C))).1.2 !! k0 = None).
        { apply not_elem_of_dom. rewrite Hdom. set_solver. }
        split; [exact Hnone|]. intros now Hin. apply Keys_in_data in Hin.
        apply (is_Some_None (A:=memoryDataItem)). rewrite <- Hnone. exact Hin.
      * refine (eq_trans Hl2 _). rewrite rev_app_distr. simpl. f_equal. f_equal.
        apply set_eq. intros z. rewrite elem_of_difference, elem_of_union, !elem_of_singleton,
          !elem_of_list_to_set, !elem_of_app, HrevK, !list_elem_of_singleton.
        naive_solver.
Qed.

(** The witness of C6: capacity 2, keys 1, 2, 3 written in turn. *)
Lemma LRU_evicts_first_written_witness :
  let ops := [(1, VInt 10, 0, 1000); (2, VInt 20, 0, 1001); (3, VInt 30, 0, 1002)] in
  dom (data (run_Sets ops (NewAdapterMemoryLru 2))) = list_to_set (tail (op_key <$> ops)) ∧
  (∀ k0, head (op_key <$> ops) = Some k0 →
     data (run_Sets ops (NewAdapterMemoryLru 2)) !! k0 = None ∧
     ∀ now, k0 ∉ (Keys now (run_Sets ops (NewAdapterMemoryLru 2))).1.1) ∧
  lru (run_Sets ops (NewAdapterMemoryLru 2)) =
    Some {| cap := 2; ldata := list_to_set (tail (op_key <$> ops));
            llist := rev (tail (op_key <$> ops)) |}.
Proof.
  intros ops. apply (LRU_evicts_first_written 2 ops).
  - lia.
  - reflexivity.
  - apply (bool_decide_unpack _). vm_compute. exact I.
Defined.

(** * Further properties of the adapter *)

(** ** [memoryData.Remove] *)

Lemma md_Remove_go_spec (keys : list key) :
  ∀ (d : gmap key memoryDataItem) (removed : list key) (lst : value),
  ∃ newly, (md_Remove_go d keys removed lst).1.1 = removed ++ newly ∧
    (∀ j, j ∈ newly ↔ j ∈ keys ∧ is_Some (d !! j)) ∧ NoDup newly ∧
    match last newly with
    | None => (md_Remove_go d keys removed lst).1.2 = lst
    | Some k => ∃ item, d !! k = Some item ∧ (md_Remove_go d keys removed lst).1.2 = v item
    end ∧
    (∀ j, (md_Remove_go d keys removed lst).2 !! j = if bool_decide (j ∈ keys) then None else d !! j).
Proof.
  induction keys as [|k ks IH]; intros d removed lst; simpl.
  - exists []. rewrite app_nil_r. split; [reflexivity|]. split; [set_solver|].
    split; [constructor|]. split; [reflexivity|].
    intros j. reflexivity.
  - destruct (d !! k) as [item|] eqn:Hk.
    + destruct (IH (delete k d) (removed ++ [k]) (v item)) as (newly & Hrem & Hmem & Hnd & Hlast & Hmap).
      exists (k :: newly). split; [rewrite Hrem, <- app_assoc; reflexivity|].
      split.
      { intros j. rewrite elem_of_cons, Hmem, elem_of_cons.
        destruct (decide (j = k)) as [->|Hjk].
        - rewrite Hk. split; [intros _; split; [left; reflexivity | eauto] | auto].
        - rewrite lookup_delete_ne by congruence. naive_solver. }
      split.
      { constructor; [|exact Hnd]. rewrite Hmem, lookup_delete_eq. intros [_ [? H]]; discriminate. }
      split.
      { rewrite last_cons. destruct (last newly) as [k'|] eqn:Hl.
        - destruct Hlast as [it [Hit Hv]]. exists it. split; [|exact Hv].
          destruct (decide (k = k')) as [<-|Hne]; [rewrite lookup_delete_eq in Hit; discriminate|].
          rewrite lookup_delete_ne in Hit by exact Hne. exact Hit.
        - exists item. split; [exact Hk | exact Hlast]. }
      intros j. rewrite Hmap. destruct (decide (j = k)) as [->|Hjk].
      * rewrite lookup_delete_eq, (bool_decide_eq_true_2 (k ∈ k :: ks)) by set_solver.
        destruct (bool_decide _); reflexivity.
      * rewrite lookup_delete_ne by congruence.
        case_bool_decide as H1; case_bool_decide as H2; try reflexivity; exfalso; set_solver.
    + destruct (IH d removed lst) as (newly & Hrem & Hmem & Hnd & Hlast & Hmap).
      exists newly. split; [exact Hrem|].
      split.
      { intros j. rewrite Hmem, elem_of_cons. destruct (decide (j = k)) as [->|Hjk].
        - rewrite Hk. split; intros [_ [? H]]; discriminate.
        - naive_solver. }
      split; [exact Hnd|]. split; [exact Hlast|].
      intros j. rewrite Hmap. destruct (decide (j = k)) as [->|Hjk].
      * rewrite Hk. destruct (bool_decide (k ∈ ks)), (bool_decide (k ∈ k :: ks)); reflexivity.
      * case_bool_decide as H1; case_bool_decide as H2; try reflexivity; exfalso; set_solver.
Qed.

(** [memoryData.Remove] deletes every given key and keeps the others; the
    removed keys are the given keys that were present, each once; the
    value returned is that of the last removed item, nil when nothing was
    removed. *)
Theorem md_Remove_spec (d : gmap key memoryDataItem) (keys : list key) :
  (∀ j, (md_Remove d keys).2 !! j = if bool_decide (j ∈ keys) then None else d !! j) ∧
  (∀ j, j ∈ (md_Remove d keys).1.1 ↔ j ∈ keys ∧ is_Some (d !! j)) ∧
  NoDup (md_Remove d keys).1.1 ∧
  match last (md_Remove d keys).1.1 with
  | None => (md_Remove d keys).1.2 = VNil
  | Some k => ∃ item, d !! k = Some item ∧ (md_Remove d keys).1.2 = v item
  end.
Proof.
  unfold md_Remove.
  destruct (md_Remove_go_spec keys d [] VNil) as (newly & Hrem & Hmem & Hnd & Hlast & Hmap).
  simpl in Hrem. rewrite Hrem.
  split; [exact Hmap|]. split; [exact Hmem|]. split; [exact Hnd | exact Hlast].
Qed.

(** ** [memoryLru.Remove] *)

Lemma lru_Remove_spec (keys : list key) :
  ∀ l, lru_wf l →
  lru_wf (lru_Remove l keys) ∧ cap (lru_Remove l keys) = cap l ∧
  (∀ x, x ∈ ldata (lru_Remove l keys) ↔ x ∈ ldata l ∧ x ∉ keys).
Proof.
  induction keys as [|k ks IH]; intros l Hwf; simpl.
  - split; [exact Hwf|]. split; [reflexivity|]. set_solver.
  - destruct Hwf as [Hnd [Hmem [Hsz Hcap]]].
    set (l1 := if bool_decide (k ∈ ldata l)
               then {| cap := cap l; ldata := ldata l ∖ {[k]}; llist := list_remove k (llist l) |}
               else l).
    assert (Hwf1 : lru_wf l1 ∧ cap l1 = cap l ∧ ∀ x, x ∈ ldata l1 ↔ x ∈ ldata l ∧ x ≠ k).
    { unfold l1. case_bool_decide as Hk.
      - unfold lru_wf. cbn [cap ldata llist]. split; [|split; [reflexivity | set_solver]].
        split; [apply list_remove_NoDup, Hnd|].
        split; [intros x; rewrite elem_of_difference, elem_of_singleton, list_remove_elem, Hmem
                  by exact Hnd; reflexivity|].
        split; [|exact Hcap].
        assert (size (ldata l ∖ {[k]}) ≤ size (ldata l))%nat by (apply subseteq_size; set_solver).
        lia.
      - split; [exact (conj Hnd (conj Hmem (conj Hsz Hcap)))|]. split; [reflexivity|].
        intros x. split; [intros Hx; split; [exact Hx | intros ->; contradiction] | tauto]. }
    destruct Hwf1 as [Hwf1 [Hcap1 Hmem1]].
    destruct (IH l1 Hwf1) as [Hwf2 [Hcap2 Hmem2]].
    split; [exact Hwf2|]. split; [congruence|].
    intros x. rewrite Hmem2, Hmem1, elem_of_cons. tauto.
Qed.

(** [memoryLru.Remove] keeps the tracker well formed and with the same
    capacity, and drops exactly the given keys from it. *)
Theorem lru_Remove_wf (l : memoryLru) (keys : list key) :
  lru_wf l →
  lru_wf (lru_Remove l keys) ∧ cap (lru_Remove l keys) = cap l ∧
  (∀ x, x ∈ ldata (lru_Remove l keys) ↔ x ∈ ldata l ∧ x ∉ keys) ∧
  (∀ x, x ∈ llist (lru_Remove l keys) ↔ x ∈ llist l ∧ x ∉ keys).
Proof.
  intros Hwf. destruct (lru_Remove_spec keys l Hwf) as [Hwf' [Hcap Hmem]].
  split; [exact Hwf'|]. split; [exact Hcap|]. split; [exact Hmem|].
  intros x. destruct Hwf' as [_ [Hm' _]]. destruct Hwf as [_ [Hm _]].
  rewrite <- Hm', <- Hm. apply Hmem.
Qed.

Lemma lru_Remove_wf_witness :
  let l := {| cap := 3; ldata := {[1; 2; 3]}; llist := [3; 2; 1] |} in
  lru_wf (lru_Remove l [2; 5]) ∧ cap (lru_Remove l [2; 5]) = cap l ∧
  (∀ x, x ∈ ldata (lru_Remove l [2; 5]) ↔ x ∈ ldata l ∧ x ∉ [2; 5]) ∧
  (∀ x, x ∈ llist (lru_Remove l [2; 5]) ↔ x ∈ llist l ∧ x ∉ [2; 5]).
Proof.
  intros l. subst l. apply lru_Remove_wf. unfold lru_wf. cbn [cap ldata llist].
  split; [apply (bool_decide_unpack _); vm_compute; exact I|].
  split; [intros x; set_solver|].
  split; [intros H; vm_compute in H; discriminate | lia].
Defined.

(** ** [AdapterMemory.Remove] *)

Lemma Remove_state (keys : list key) (now : Z) (c : AdapterMemory) :
  (Remove keys now c).1.2 =
    with_lru (option_map (λ l, lru_Remove l keys) (lru c))
      (with_events (eventList c ++ ((λ k, (k, wrap64 (now - 1000))) <$> (md_Remove (data c) keys).1.1))
         (with_data (md_Remove (data c) keys).2 c)).
Proof.
  unfold Remove, doRemove, pushEvents. unfold_M. simpl.
  destruct (md_Remove (data c) keys) as [[r val] d]. reflexivity.
Qed.

(** [Remove(keys...)] deletes every given key: [Get] misses and
    [GetExpire] returns -1 for each of them, at any clock reading; the
    other entries are kept; one event [now - 1000] is queued per removed
    key, in the order of removal; and a tracker that tracked every key of
    the data map still does. *)
Theorem Remove_deletes_keys (keys : list key) (now : Z) (c : AdapterMemory) :
  (∀ k now', k ∈ keys →
     (Get k now' (Remove keys now c).1.2).1.1 = None ∧
     (GetExpire k now' (Remove keys now c).1.2).1.1 = -1) ∧
  (∀ j, j ∉ keys → data (Remove keys now c).1.2 !! j = data c !! j) ∧
  eventList (Remove keys now c).1.2 =
    eventList c ++ ((λ k, (k, wrap64 (now - 1000))) <$> (md_Remove (data c) keys).1.1) ∧
  (lru_tracks c → lru_tracks (Remove keys now c).1.2).
Proof.
  destruct (md_Remove_go_spec keys (data c) [] VNil) as (_ & _ & _ & _ & _ & Hmap).
  fold (md_Remove (data c) keys) in Hmap.
  rewrite Remove_state.
  split.
  { intros k now' Hk. rewrite Get_result, GetExpire_result. simpl.
    rewrite Hmap, bool_decide_eq_true_2 by exact Hk. split; reflexivity. }
  split.
  { intros j Hj. simpl. rewrite Hmap, bool_decide_eq_false_2 by exact Hj. reflexivity. }
  split; [reflexivity|].
  unfold lru_tracks. simpl. destruct (lru c) as [l|]; [|tauto]. simpl.
  intros [Hwf Htr]. destruct (lru_Remove_spec keys l Hwf) as [Hwf' [_ Hmem]].
  split; [exact Hwf'|]. intros j Hj. rewrite Hmap in Hj.
  case_bool_decide as Hjk; [destruct Hj as [? Hj]; discriminate|].
  apply Hmem. split; [apply Htr, Hj | exact Hjk].
Qed.

(** ** [AdapterMemory.Clear] *)

(** [Clear] empties the data map and the tracker (which keeps its
    capacity): afterwards [Get] misses, [GetExpire] returns -1, [Size] is
    0 and [Keys] is empty at every clock reading; the expiry index, the
    buckets and the queued events are left as they were. *)
Theorem Clear_empties (now : Z) (c : AdapterMemory) :
  (∀ k now', (Get k now' (Clear now c).1.2).1.1 = None ∧
             (GetExpire k now' (Clear now c).1.2).1.1 = -1) ∧
  (∀ now', (Size now' (Clear now c).1.2).1.1 = 0%nat ∧ (Keys now' (Clear now c).1.2).1.1 = []) ∧
  lru (Clear now c).1.2 = option_map (λ l, {| cap := cap l; ldata := ∅; llist := [] |}) (lru c) ∧
  expireTimes (Clear now c).1.2 = expireTimes c ∧ expireSets (Clear now c).1.2 = expireSets c ∧
  eventList (Clear now c).1.2 = eventList c ∧
  (lru_tracks c → lru_tracks (Clear now c).1.2).
Proof.
  split; [intros k now'; rewrite Get_result, GetExpire_result; split; reflexivity|].
  split; [intros now'; split; reflexivity|].
  split; [reflexivity|]. split; [reflexivity|]. split; [reflexivity|]. split; [reflexivity|].
  unfold lru_tracks. simpl. destruct (lru c) as [l|]; [|tauto]. simpl.
  intros [[_ [_ [_ Hcap]]] _]. split.
  - split; [constructor|]. split; [set_solver|]. unfold lru_Clear; cbn [ldata cap]; split; [rewrite size_empty; simpl; lia | exact Hcap].
  - intros j [? Hj]. rewrite lookup_empty in Hj. discriminate.
Qed.

(** ** The snapshot views *)

(** [Size] is the length of [Keys] and of [Values]; [Keys] has no
    duplicates and lists exactly the keys whose entry expires after the
    clock reading; [Data] maps exactly those keys to their values. *)
Theorem snapshots_agree (now : Z) (c : AdapterMemory) :
  (Size now c).1.1 = length (Keys now c).1.1 ∧
  length (Values now c).1.1 = (Size now c).1.1 ∧
  NoDup (Keys now c).1.1 ∧
  (∀ k, k ∈ (Keys now c).1.1 ↔ ∃ item, data c !! k = Some item ∧ now < e item) ∧
  (∀ k, (Data now c).1.1 !! k =
     match data c !! k with
     | Some item => if bool_decide (now < e item) then Some (v item) else None
     | None => None
     end).
Proof.
  simpl. unfold md_Size, md_Keys, md_Values, md_Data.
  split; [rewrite length_fmap, length_map_to_list; reflexivity|].
  split; [rewrite length_fmap, length_map_to_list; reflexivity|].
  split; [apply NoDup_fst_map_to_list|].
  split.
  - intros k. rewrite list_elem_of_fmap. split.
    + intros [[k' it] [Heq Hin]]. simpl in Heq. subst k'.
      apply elem_of_map_to_list, map_lookup_filter_Some in Hin as [Hin Hlt]. eauto.
    + intros [item [Hk Hlt]]. exists (k, item). split; [reflexivity|].
      apply elem_of_map_to_list, map_lookup_filter_Some. split; [exact Hk | exact Hlt].
  - intros k. rewrite lookup_fmap. unfold md_live.
    destruct (data c !! k) as [item|] eqn:Hk.
    + case_bool_decide as Hlt.
      * rewrite (proj2 (map_lookup_filter_Some _ _ k item)) by (split; [exact Hk | exact Hlt]).
        reflexivity.
      * rewrite (proj2 (map_lookup_filter_None _ _ k)); [reflexivity|].
        right. intros x Hx. rewrite Hk in Hx. injection Hx as <-. exact Hlt.
    + rewrite (proj2 (map_lookup_filter_None _ _ k)); [reflexivity|]. left. exact Hk.
Qed.

(** ** The tracker follows the data map *)

Lemma doSaveAndEvict_ldata (l : memoryLru) (k : key) :
  lru_wf l →
  ∀ j, j ∈ ldata (doSaveAndEvict l k).2 ↔ (j = k ∨ j ∈ ldata l) ∧ (doSaveAndEvict l k).1 ≠ Some j.
Proof.
  intros Hwf. pose proof Hwf as [Hnd [Hmem [Hsz Hcap]]].
  unfold doSaveAndEvict. case_bool_decide as Hin.
  - case_bool_decide as Hhd.
    { simpl. intros j. split; [intros Hj; split; [right; exact Hj | discriminate]|].
      intros [[->|Hj] _]; [exact Hin | exact Hj]. }
    assert (Hunion : {[k]} ∪ ldata l = ldata l) by set_solver.
    destruct (pushFront_spec l k (list_remove k (llist l))) as [_ [_ [_ Hcase]]].
    + exact Hcap.
    + constructor; [rewrite list_remove_elem by exact Hnd; naive_solver|].
      apply list_remove_NoDup, Hnd.
    + intros y. rewrite elem_of_cons, list_remove_elem by exact Hnd.
      rewrite elem_of_union, elem_of_singleton, Hmem.
      destruct (decide (y = k)); naive_solver.
    + rewrite Hunion. lia.
    + rewrite Hunion in Hcase. destruct Hcase as [[_ Heq] | [Hlt _]]; [|lia].
      rewrite Heq. simpl. intros j.
      split; [intros Hj; split; [right; set_solver | discriminate]|].
      intros [Hj _]. set_solver.
  - destruct (pushFront_spec l k (llist l)) as [_ [_ [_ Hcase]]].
    + exact Hcap.
    + constructor; [rewrite <- Hmem; exact Hin | exact Hnd].
    + intros y. rewrite elem_of_cons, elem_of_union, elem_of_singleton, Hmem. reflexivity.
    + rewrite size_union by set_solver. rewrite size_singleton. lia.
    + destruct Hcase as [[_ Heq] | [_ [x [_ [Hxk Heq]]]]]; rewrite Heq; simpl; intros j.
      * split; [intros Hj; split; [set_solver | discriminate]|]. intros [Hj _]. set_solver.
      * rewrite elem_of_difference, elem_of_union, !elem_of_singleton.
        split; intros [Hj Hjx]; (split; [tauto | congruence]).
Qed.

(** Touching a key takes it off the keys the tracker may miss. *)
Lemma handleLruKey_tracks_except (k now : Z) (c : AdapterMemory) (U : gset key) :
  lru_tracks_except c U → lru_tracks_except (handleLruKey [k] now c).1.2 (U ∖ {[k]}).
Proof.
  unfold lru_tracks_except. destruct (handleLruKey_one k now c) as [Hd Hl].
  rewrite Hl. destruct (lru c) as [l|] eqn:Hlc; [|tauto].
  intros [Hwf Htr]. destruct (doSaveAndEvict_wf l k Hwf) as [Hwf' _].
  pose proof (doSaveAndEvict_ldata l k Hwf) as Hld.
  split; [exact Hwf'|]. intros j Hj. rewrite Hd in Hj.
  assert (Hgoal : is_Some (data c !! j) → (doSaveAndEvict l k).1 ≠ Some j →
                  j ∈ ldata (doSaveAndEvict l k).2 ∨ j ∈ U ∖ {[k]}).
  { intros Hsome Hnx. destruct (decide (j = k)) as [->|Hjk].
    - left. apply Hld. split; [left; reflexivity | exact Hnx].
    - destruct (Htr j Hsome) as [HjL|HjU].
      + left. apply Hld. split; [right; exact HjL | exact Hnx].
      + right. set_solver. }
  destruct (doSaveAndEvict l k).1 as [x|] eqn:Hx.
  - destruct (decide (x = j)) as [<-|Hxj].
    { rewrite lookup_delete_eq in Hj. destruct Hj as [? Hj]. discriminate. }
    rewrite lookup_delete_ne in Hj by exact Hxj. apply Hgoal; [exact Hj | congruence].
  - apply Hgoal; [exact Hj | discriminate].
Qed.

Lemma lru_tracks_except_empty (c : AdapterMemory) :
  lru_tracks_except c ∅ ↔ lru_tracks c.
Proof.
  unfold lru_tracks_except, lru_tracks. destruct (lru c) as [l|]; [|tauto].
  split; intros [Hwf Htr]; (split; [exact Hwf|]); intros j Hj.
  - destruct (Htr j Hj) as [H|H]; [exact H | set_solver].
  - left. apply Htr, Hj.
Qed.

(** Writing key [k] into a tracked cache leaves at most [k] untracked. *)
Lemma lru_tracks_insert (c : AdapterMemory) (k : key) (item : memoryDataItem)
    (f : AdapterMemory → AdapterMemory) :
  lru_tracks c → lru (f c) = lru c →
  (∀ j, is_Some (data (f c) !! j) → j = k ∨ is_Some (data c !! j)) →
  lru_tracks_except (f c) {[k]}.
Proof.
  unfold lru_tracks, lru_tracks_except. intros Htr Hl Hd. rewrite Hl.
  destruct (lru c) as [l|]; [|exact I]. destruct Htr as [Hwf Htr].
  split; [exact Hwf|]. intros j Hj. destruct (Hd j Hj) as [->|Hj'].
  - right. set_solver.
  - left. apply Htr, Hj'.
Qed.

(** [Set] keeps the tracker following the data map: on a cache whose
    tracker (if any) is well formed and tracks every key of the data map,
    the same holds after [Set(k, v, d)]. *)
Theorem Set_preserves_lru_tracks (k : key) (val : value) (duration now : Z) (c : AdapterMemory) :
  lru_tracks c → lru_tracks (Set_ k val duration now c).1.2.
Proof.
  intros Htr. destruct (Set_state k val duration now c) as [_ ->].
  apply lru_tracks_except_empty.
  replace (∅ : gset key) with ({[k]} ∖ {[k]} : gset key) by set_solver.
  apply handleLruKey_tracks_except.
  apply (lru_tracks_insert c k {| v := VNil; e := 0 |}
    (λ c, with_events (eventList c ++ [(k, (getInternalExpire duration now c).1.1)])
      (with_data (<[k := {| v := val; e := (getInternalExpire duration now c).1.1 |}]> (data c)) c)));
    [exact Htr | reflexivity |].
  intros j Hj. simpl in Hj. destruct (decide (j = k)) as [->|Hjk]; [left; reflexivity|].
  right. rewrite lookup_insert_ne in Hj by congruence. exact Hj.
Qed.

Lemma Set_preserves_lru_tracks_witness :
  lru_tracks (Set_ 2 (VInt 20) 0 1001
    (Set_ 1 (VInt 10) 0 1000 (NewAdapterMemoryLru 1)).1.2).1.2.
Proof.
  apply Set_preserves_lru_tracks. apply Set_preserves_lru_tracks.
  unfold lru_tracks. vm_compute. split.
  - split; [constructor|]. split; [intros x; set_solver|].
    split; [intros H; discriminate | reflexivity].
  - intros k [it Hk]. discriminate.
Defined.

(** [Set] then [Get]: on a cache whose tracker (if any) is well formed,
    [Set(k, v, d)] stores [v] with the expiry [getInternalExpire(d)], and
    [Get(k)] returns [v] at every clock reading up to that expiry: the
    touch of [k] never evicts [k] itself. *)
Theorem Set_then_Get (k : key) (val : value) (duration now : Z) (c : AdapterMemory) :
  (∀ l, lru c = Some l → lru_wf l) →
  data (Set_ k val duration now c).1.2 !! k =
    Some {| v := val; e := (getInternalExpire duration now c).1.1 |} ∧
  ∀ now', now' <= (getInternalExpire duration now c).1.1 →
    (Get k now' (Set_ k val duration now c).1.2).1.1 = Some val.
Proof.
  intros Hwf. destruct (Set_state k val duration now c) as [_ Hst].
  assert (Hd : data (Set_ k val duration now c).1.2 !! k =
               Some {| v := val; e := (getInternalExpire duration now c).1.1 |}).
  { rewrite Hst.
    match goal with |- context [handleLruKey [k] now ?c0] =>
      destruct (handleLruKey_touch k now c0) as [Hd _] end; [exact Hwf|].
    rewrite Hd. simpl. apply lookup_insert_eq. }
  split; [exact Hd|]. intros now' Hle. apply (Get_live _ _ _ _ _ Hd Hle).
Qed.

Lemma Set_then_Get_witness :
  data (Set_ 1 (VInt 5) 1000000000 1000 NewAdapterMemory).1.2 !! 1 =
    Some {| v := VInt 5; e := (getInternalExpire 1000000000 1000 NewAdapterMemory).1.1 |} ∧
  ∀ now', now' <= (getInternalExpire 1000000000 1000 NewAdapterMemory).1.1 →
    (Get 1 now' (Set_ 1 (VInt 5) 1000000000 1000 NewAdapterMemory).1.2).1.1 = Some (VInt 5).
Proof. apply Set_then_Get. intros l Hl. discriminate. Defined.

(** ** [SetMap] *)



Lemma getInternalExpire_state (duration now : Z) (c : AdapterMemory) :
  getInternalExpire duration now c = ((getInternalExpire duration now c).1.1, c, []).
Proof. unfold getInternalExpire. destruct (decide (duration = 0)); reflexivity. Qed.







(** ** [UpdateExpire] *)

(** A duration in whole milliseconds, as int64 nanoseconds, is never -1. *)
Lemma wrap64_ms_not_minus_one (x : Z) : wrap64 (x * 1000000) ≠ -1.
Proof.
  unfold wrap64. intros H.
  pose proof (Z.div_mod (x * 1000000 + 2 ^ 63) (2 ^ 64) ltac:(lia)).
  lia.
Qed.

Lemma handleLruKey_tracked (k now : Z) (c : AdapterMemory) (l : memoryLru) :
  lru c = Some l → lru_wf l → k ∈ ldata l →
  data (handleLruKey [k] now c).1.2 = data c ∧
  eventList (handleLruKey [k] now c).1.2 = eventList c.
Proof.
  intros Hl Hwf Hk. destruct (doSaveAndEvict_wf l k Hwf) as [_ [_ [_ [_ Hin]]]].
  destruct (Hin Hk) as [Hnone _].
  unfold handleLruKey. unfold_M. simpl. rewrite Hl. simpl.
  destruct (doSaveAndEvict l k) as [[x|] l'] eqn:E; simpl in Hnone; [discriminate|].
  simpl. split; reflexivity.
Qed.

(** [UpdateExpire(k, d)] on a cache whose tracker (if any) tracks every
    key of the data map: for an absent key it returns -1 and changes
    nothing; for a present key it returns the old remaining duration in
    nanoseconds, replaces the expiry by [getInternalExpire(d)] keeping the
    value, leaves every other entry alone, queues one event for the new
    expiry, and the tracker still tracks every key. *)
Theorem UpdateExpire_spec (k : key) (duration now : Z) (c : AdapterMemory) :
  lru_tracks c →
  (data c !! k = None → UpdateExpire k duration now c = (-1, c, [])) ∧
  (∀ item, data c !! k = Some item →
     (UpdateExpire k duration now c).1.1 = wrap64 (wrap64 (e item - now) * 1000000) ∧
     data (UpdateExpire k duration now c).1.2 !! k =
       Some {| v := v item; e := (getInternalExpire duration now c).1.1 |} ∧
     (∀ j, j ≠ k → data (UpdateExpire k duration now c).1.2 !! j = data c !! j) ∧
     eventList (UpdateExpire k duration now c).1.2 =
       eventList c ++ [(k, (getInternalExpire duration now c).1.1)] ∧
     lru_tracks (UpdateExpire k duration now c).1.2).
Proof.
  intros Htr. set (ex := (getInternalExpire duration now c).1.1).
  unfold UpdateExpire, md_UpdateExpire, pushEvents. unfold_M. simpl.
  rewrite getInternalExpire_state. fold ex. simpl.
  split.
  { intros Hk. rewrite Hk. simpl. destruct c; reflexivity. }
  intros item Hk. rewrite Hk. simpl.
  rewrite bool_decide_eq_false_2 by apply wrap64_ms_not_minus_one. simpl.
  set (c1 := with_events (eventList c ++ [(k, ex)])
               (with_data (<[k := {| v := v item; e := ex |}]> (data c)) c)).
  destruct (handleLruKey [k] now c1) as [[[] c2] t2] eqn:Hh. simpl.
  assert (Hc2 : c2 = (handleLruKey [k] now c1).1.2) by (rewrite Hh; reflexivity).
  assert (Hdat : data c2 = data c1 ∧ eventList c2 = eventList c1).
  { rewrite Hc2. unfold lru_tracks in Htr. destruct (lru c) as [l|] eqn:Hl.
    - destruct Htr as [Hwf Htr]. apply (handleLruKey_tracked k now c1 l); [exact Hl | exact Hwf|].
      apply Htr. rewrite Hk. eauto.
    - unfold handleLruKey. unfold_M. simpl. rewrite Hl. split; reflexivity. }
  destruct Hdat as [Hd He].
  split; [reflexivity|]. rewrite Hd, He. simpl.
  split; [apply lookup_insert_eq|].
  split; [intros j Hj; apply lookup_insert_ne; congruence|].
  split; [reflexivity|].
  rewrite Hc2. apply lru_tracks_except_empty.
  replace (∅ : gset key) with (∅ ∖ {[k]} : gset key) by set_solver.
  apply handleLruKey_tracks_except. apply lru_tracks_except_empty.
  unfold lru_tracks in *. unfold c1. simpl. destruct (lru c) as [l|]; [|exact I].
  destruct Htr as [Hwf Htr]. split; [exact Hwf|].
  intros j Hj. destruct (decide (j = k)) as [->|Hjk]; [apply Htr; rewrite Hk; eauto|].
  rewrite lookup_insert_ne in Hj by congruence. apply Htr, Hj.
Qed.

Lemma UpdateExpire_spec_witness :
  let c := (Set_ 1 (VInt 5) 1000000000 1000 NewAdapterMemory).1.2 in
  (data c !! 2 = None → UpdateExpire 2 3000000000 1500 c = (-1, c, [])) ∧
  (∀ item, data c !! 1 = Some item →
     (UpdateExpire 1 3000000000 1500 c).1.1 = wrap64 (wrap64 (e item - 1500) * 1000000) ∧
     data (UpdateExpire 1 3000000000 1500 c).1.2 !! 1 =
       Some {| v := v item; e := (getInternalExpire 3000000000 1500 c).1.1 |} ∧
     (∀ j, j ≠ 1 → data (UpdateExpire 1 3000000000 1500 c).1.2 !! j = data c !! j) ∧
     eventList (UpdateExpire 1 3000000000 1500 c).1.2 =
       eventList c ++ [(1, (getInternalExpire 3000000000 1500 c).1.1)] ∧
     lru_tracks (UpdateExpire 1 3000000000 1500 c).1.2).
Proof.
  intros c. split.
  - apply (UpdateExpire_spec 2 3000000000 1500 c). vm_compute. exact I.
  - apply (UpdateExpire_spec 1 3000000000 1500 c). vm_compute. exact I.
Defined.

(** ** The read-or-write operations *)

Lemma handleLruKey_trace (ks : list key) (now : Z) (c : AdapterMemory) :
  (handleLruKey ks now c).2 = [].
Proof.
  unfold handleLruKey, doRemove, pushEvents. unfold_M. simpl.
  destruct (lru c) as [l|]; [|reflexivity]. simpl.
  destruct (SaveAndEvict l ks) as [[|x xs] l']; simpl; [reflexivity|].
  destruct (md_Remove (data c) (x :: xs)) as [[r val] d]. reflexivity.
Qed.

Lemma handleLruKey_none (ks : list key) (now : Z) (c : AdapterMemory) :
  lru c = None → handleLruKey ks now c = (tt, c, []).
Proof. intros Hl. unfold handleLruKey. unfold_M. simpl. rewrite Hl. reflexivity. Qed.

Lemma Get_trace (k : key) (now : Z) (c : AdapterMemory) : (Get k now c).2 = [].
Proof.
  unfold Get, md_Get. unfold_M. simpl.
  destruct (data c !! k) as [item|]; simpl; [|reflexivity].
  destruct (negb (IsExpired item now)); simpl; [|reflexivity].
  pose proof (handleLruKey_trace [k] now c) as Ht.
  destruct (handleLruKey [k] now c) as [[[] c'] t]. simpl in Ht. subst t. reflexivity.
Qed.

Lemma Get_miss (k : key) (now : Z) (c : AdapterMemory) :
  (Get k now c).1.1 = None →
  (Get k now c).1.2 = c ∧ ∀ item, data c !! k = Some item → IsExpired item now = true.
Proof.
  rewrite Get_result, Get_state. destruct (data c !! k) as [item|]; [|split; [reflexivity | discriminate]].
  destruct (IsExpired item now) eqn:Hx; simpl; [|discriminate].
  intros _. split; [reflexivity|]. intros i Hi. injection Hi as <-. exact Hx.
Qed.

Lemma Contains_eq (k : key) (now : Z) (c : AdapterMemory) :
  Contains k now c = (match (Get k now c).1.1 with Some _ => true | None => false end, (Get k now c).1.2, []).
Proof.
  unfold Contains. unfold_M. pose proof (Get_trace k now c) as Ht.
  destruct (Get k now c) as [[r c'] t]. simpl in Ht |- *. subst t. reflexivity.
Qed.

(** An operation of the shape [x ← m; res ← g x; handleLruKey [k];; mret res]. *)
Lemma deferred_touch {A B} (m : M A) (g : A → M B) (k now : Z) (c : AdapterMemory) :
  (m ≫= λ x, res ← g x; handleLruKey [k];; mret res) now c =
    let '(a, c1, t1) := m now c in
    let '(b, c2, t2) := g a now c1 in
    (b, (handleLruKey [k] now c2).1.2, t1 ++ t2).
Proof.
  unfold_M. destruct (m now c) as [[a c1] t1]. destruct (g a now c1) as [[b c2] t2].
  pose proof (handleLruKey_trace [k] now c2) as Ht.
  destruct (handleLruKey [k] now c2) as [[[] c3] t3]. simpl in Ht |- *. subst t3.
  rewrite !app_nil_r. reflexivity.
Qed.

Lemma doSetWithLockCheck_eq (k : key) (val : value) (duration now : Z) (c : AdapterMemory) :
  let ex := (getInternalExpire duration now c).1.1 in
  let r := md_SetWithLock now (data c) k val ex in
  doSetWithLockCheck k val duration now c =
    ((gvar_New r.1.1.1, r.1.1.2), with_events (eventList c ++ [(k, ex)]) (with_data r.1.2 c), r.2).
Proof.
  intros ex r. unfold doSetWithLockCheck, pushEvents. unfold_M. simpl.
  rewrite getInternalExpire_state. fold ex. simpl. fold r.
  destruct r as [[[r1 r2] d] tr]. simpl. rewrite !app_nil_r. reflexivity.
Qed.

Lemma md_SetWithLock_dead (now : Z) (d : gmap key memoryDataItem) (k : key) (val : value) (ex : Z) :
  (∀ item, d !! k = Some item → IsExpired item now = true) →
  md_SetWithLock now d k val ex =
    match val with
    | VFunc f =>
        match f tt with
        | (_, Some err) => ((VNil, Some err), d, [ProducerCalled])
        | (VNil, None) => ((VNil, None), d, [ProducerCalled])
        | (r, None) => ((r, None), <[k := {| v := r; e := ex |}]> d, [ProducerCalled])
        end
    | _ => ((val, None), <[k := {| v := val; e := ex |}]> d, [])
    end.
Proof.
  intros Hdead. unfold md_SetWithLock.
  destruct (d !! k) as [item|] eqn:Hk; [rewrite (Hdead item eq_refl); simpl|]; reflexivity.
Qed.

(** [doSetWithLockCheck(k, v, d)] always queues the expiry event
    [(k, getInternalExpire(d))], also when it stores nothing. A live entry
    is returned and kept. Otherwise a plain value is stored and returned;
    a producer is called once: its error or nil result is returned and
    nothing is stored, any other result is stored and returned. *)
Theorem doSetWithLockCheck_spec (k : key) (val : value) (duration now : Z) (c : AdapterMemory) :
  let ex := (getInternalExpire duration now c).1.1 in
  eventList (doSetWithLockCheck k val duration now c).1.2 = eventList c ++ [(k, ex)] ∧
  lru (doSetWithLockCheck k val duration now c).1.2 = lru c ∧
  (∀ item, data c !! k = Some item → IsExpired item now = false →
     doSetWithLockCheck k val duration now c =
       ((gvar_New (v item), None), with_events (eventList c ++ [(k, ex)]) c, [])) ∧
  ((∀ item, data c !! k = Some item → IsExpired item now = true) →
     (is_func val = false →
        doSetWithLockCheck k val duration now c =
          ((gvar_New val, None),
           with_events (eventList c ++ [(k, ex)]) (with_data (<[k := {| v := val; e := ex |}]> (data c)) c),
           [])) ∧
     (∀ f, val = VFunc f →
        (∀ r err, f tt = (r, Some err) →
           doSetWithLockCheck k val duration now c =
             ((gvar_New VNil, Some err), with_events (eventList c ++ [(k, ex)]) c, [ProducerCalled])) ∧
        (f tt = (VNil, None) →
           doSetWithLockCheck k val duration now c =
             ((gvar_New VNil, None), with_events (eventList c ++ [(k, ex)]) c, [ProducerCalled])) ∧
        (∀ r, f tt = (r, None) → r ≠ VNil →
           doSetWithLockCheck k val duration now c =
             ((gvar_New r, None),
              with_events (eventList c ++ [(k, ex)]) (with_data (<[k := {| v := r; e := ex |}]> (data c)) c),
              [ProducerCalled])))).
Proof.
  intros ex. rewrite doSetWithLockCheck_eq. fold ex.
  split; [reflexivity|]. split; [reflexivity|]. split.
  { intros item Hk Hx. unfold md_SetWithLock. rewrite Hk, Hx. simpl.
    destruct c; reflexivity. }
  intros Hdead. rewrite md_SetWithLock_dead by exact Hdead. split.
  { intros Hf. destruct val as [| z | f]; [reflexivity | reflexivity | discriminate]. }
  intros f ->. split; [|split].
  - intros r err Hf. rewrite Hf. destruct c, r; reflexivity.
  - intros Hf. rewrite Hf. destruct c; reflexivity.
  - intros r Hf Hr. rewrite Hf. destruct r; [congruence | reflexivity | reflexivity].
Qed.

Lemma touch_tracked (k now : Z) (c : AdapterMemory) :
  lru_tracks c → is_Some (data c !! k) →
  data (handleLruKey [k] now c).1.2 = data c ∧
  eventList (handleLruKey [k] now c).1.2 = eventList c ∧
  lru_tracks (handleLruKey [k] now c).1.2.
Proof.
  intros Htr Hk.
  assert (Htr' : lru_tracks (handleLruKey [k] now c).1.2).
  { apply lru_tracks_except_empty.
    replace (∅ : gset key) with (∅ ∖ {[k]} : gset key) by set_solver.
    apply handleLruKey_tracks_except, lru_tracks_except_empty, Htr. }
  unfold lru_tracks in Htr. destruct (lru c) as [l|] eqn:Hl.
  - destruct Htr as [Hwf Hin].
    destruct (handleLruKey_tracked k now c l Hl Hwf (Hin k Hk)) as [Hd He].
    split; [exact Hd|]. split; [exact He | exact Htr'].
  - rewrite (handleLruKey_none [k] now c Hl). simpl. split; [reflexivity|]. split; [reflexivity|].
    unfold lru_tracks. rewrite Hl. exact I.
Qed.

Lemma Get_hit (k now : Z) (c : AdapterMemory) (w : value) :
  (Get k now c).1.1 = Some w → lru_tracks c →
  data (Get k now c).1.2 = data c ∧ eventList (Get k now c).1.2 = eventList c ∧
  lru_tracks (Get k now c).1.2 ∧ is_Some (data (Get k now c).1.2 !! k).
Proof.
  intros Hw Htr. rewrite Get_result in Hw. rewrite Get_state.
  destruct (data c !! k) as [item|] eqn:Hk; [|discriminate].
  destruct (negb (IsExpired item now)); [|discriminate].
  destruct (touch_tracked k now c Htr) as [Hd [He Ht]]; [rewrite Hk; eauto|].
  split; [exact Hd|]. split; [exact He|]. split; [exact Ht|]. rewrite Hd, Hk. eauto.
Qed.

Ltac Get_case k now c :=
  pose proof (Get_trace k now c) as Hgt;
  rewrite deferred_touch;
  destruct (Get k now c) as [[r0 c1] t1] eqn:HG; simpl in *; subst t1.

(** [GetOrSet(k, v, d)]: when [Get(k)] finds a live value, that value is
    returned, nothing is written and no event is queued (on a cache whose
    tracker tracks every key); otherwise a plain value is stored exactly
    as [Set(k, v, d)] stores it, and returned. *)
Theorem GetOrSet_spec (k : key) (val : value) (duration now : Z) (c : AdapterMemory) :
  (∀ w, (Get k now c).1.1 = Some w → lru_tracks c →
     (GetOrSet k val duration now c).1.1 = (Some w, None) ∧
     (GetOrSet k val duration now c).2 = [] ∧
     data (GetOrSet k val duration now c).1.2 = data c ∧
     eventList (GetOrSet k val duration now c).1.2 = eventList c ∧
     lru_tracks (GetOrSet k val duration now c).1.2) ∧
  ((Get k now c).1.1 = None → is_func val = false →
     GetOrSet k val duration now c = ((Some val, None), (Set_ k val duration now c).1.2, [])).
Proof.
  split.
  - intros w Hw Htr. destruct (Get_hit k now c w Hw Htr) as [Hd [He [Ht Hs]]].
    unfold GetOrSet. Get_case k now c. subst r0. unfold_M. simpl.
    destruct (touch_tracked k now c1 Ht Hs) as [Hd' [He' Ht']].
    split; [reflexivity|]. split; [reflexivity|].
    rewrite Hd', He', Hd, He. split; [reflexivity|]. split; [reflexivity | exact Ht'].
  - intros Hmiss Hf. destruct (Get_miss k now c Hmiss) as [Hst Hdead].
    destruct (Set_state k val duration now c) as [_ HS]. rewrite HS.
    unfold GetOrSet. Get_case k now c. subst r0 c1.
    rewrite doSetWithLockCheck_eq, md_SetWithLock_dead by exact Hdead.
    destruct val as [| z | f]; [| | discriminate]; reflexivity.
Qed.

(** [GetOrSetFunc(k, f, d)]: on a hit the producer is not called and the
    live value is returned, nothing written; on a miss the producer is
    called once; its error, or a nil result, is returned without any
    write or event (only the deferred touch of [k] runs), and any other
    plain result is stored exactly as [Set(k, result, d)] stores it, and
    returned. *)
Theorem GetOrSetFunc_spec (k : key) (f : unit → value * option error) (duration now : Z)
    (c : AdapterMemory) :
  (∀ w, (Get k now c).1.1 = Some w → lru_tracks c →
     (GetOrSetFunc k f duration now c).1.1 = (Some w, None) ∧
     (GetOrSetFunc k f duration now c).2 = [] ∧
     data (GetOrSetFunc k f duration now c).1.2 = data c ∧
     eventList (GetOrSetFunc k f duration now c).1.2 = eventList c ∧
     lru_tracks (GetOrSetFunc k f duration now c).1.2) ∧
  ((Get k now c).1.1 = None →
     (∀ r err, f tt = (r, Some err) →
        GetOrSetFunc k f duration now c =
          ((None, Some err), (handleLruKey [k] now c).1.2, [ProducerCalled])) ∧
     (f tt = (VNil, None) →
        GetOrSetFunc k f duration now c =
          ((None, None), (handleLruKey [k] now c).1.2, [ProducerCalled])) ∧
     (∀ r, f tt = (r, None) → r ≠ VNil → is_func r = false →
        GetOrSetFunc k f duration now c =
          ((Some r, None), (Set_ k r duration now c).1.2, [ProducerCalled]))).
Proof.
  split.
  - intros w Hw Htr. destruct (Get_hit k now c w Hw Htr) as [Hd [He [Ht Hs]]].
    unfold GetOrSetFunc. Get_case k now c. subst r0. unfold_M. simpl.
    destruct (touch_tracked k now c1 Ht Hs) as [Hd' [He' Ht']].
    split; [reflexivity|]. split; [reflexivity|].
    rewrite Hd', He', Hd, He. split; [reflexivity|]. split; [reflexivity | exact Ht'].
  - intros Hmiss. destruct (Get_miss k now c Hmiss) as [Hst Hdead].
    unfold GetOrSetFunc. Get_case k now c. subst r0 c1.
    split; [|split].
    + intros r err Hf. unfold_M. simpl. rewrite Hf. destruct r; reflexivity.
    + intros Hf. unfold_M. simpl. rewrite Hf. reflexivity.
    + intros r Hf Hnil Hr. destruct (Set_state k r duration now c) as [_ HS]. rewrite HS.
      unfold emit, mbind, M_bind. simpl. rewrite Hf.
      destruct r as [| z | g]; [congruence | | discriminate].
      rewrite doSetWithLockCheck_eq, md_SetWithLock_dead by exact Hdead. reflexivity.
Qed.

(** [GetOrSetFuncLock(k, f, d)]: on a hit the producer is not called and
    the live value is returned, nothing written; on a miss the producer is
    called once, under the lock: a non-nil result is stored exactly as
    [Set(k, result, d)] stores it, and returned; on an error or a nil
    result nothing is stored but the expiry event [(k, getInternalExpire(d))]
    is still queued. *)
Theorem GetOrSetFuncLock_spec (k : key) (f : unit → value * option error) (duration now : Z)
    (c : AdapterMemory) :
  let ex := (getInternalExpire duration now c).1.1 in
  (∀ w, (Get k now c).1.1 = Some w → lru_tracks c →
     (GetOrSetFuncLock k f duration now c).1.1 = (Some w, None) ∧
     (GetOrSetFuncLock k f duration now c).2 = [] ∧
     data (GetOrSetFuncLock k f duration now c).1.2 = data c ∧
     eventList (GetOrSetFuncLock k f duration now c).1.2 = eventList c ∧
     lru_tracks (GetOrSetFuncLock k f duration now c).1.2) ∧
  ((Get k now c).1.1 = None →
     (∀ r err, f tt = (r, Some err) →
        (GetOrSetFuncLock k f duration now c).1.1.2 = Some err ∧
        (GetOrSetFuncLock k f duration now c).1.2 =
          (handleLruKey [k] now (with_events (eventList c ++ [(k, ex)]) c)).1.2 ∧
        (GetOrSetFuncLock k f duration now c).2 = [ProducerCalled]) ∧
     (f tt = (VNil, None) →
        (GetOrSetFuncLock k f duration now c).1.1.2 = None ∧
        (GetOrSetFuncLock k f duration now c).1.2 =
          (handleLruKey [k] now (with_events (eventList c ++ [(k, ex)]) c)).1.2 ∧
        (GetOrSetFuncLock k f duration now c).2 = [ProducerCalled]) ∧
     (∀ r, f tt = (r, None) → r ≠ VNil →
        GetOrSetFuncLock k f duration now c =
          ((Some r, None), (Set_ k r duration now c).1.2, [ProducerCalled]))).
Proof.
  intros ex. split.
  - intros w Hw Htr. destruct (Get_hit k now c w Hw Htr) as [Hd [He [Ht Hs]]].
    unfold GetOrSetFuncLock. Get_case k now c. subst r0. unfold_M. simpl.
    destruct (touch_tracked k now c1 Ht Hs) as [Hd' [He' Ht']].
    split; [reflexivity|]. split; [reflexivity|].
    rewrite Hd', He', Hd, He. split; [reflexivity|]. split; [reflexivity | exact Ht'].
  - intros Hmiss. destruct (Get_miss k now c Hmiss) as [Hst Hdead].
    unfold GetOrSetFuncLock. Get_case k now c. subst r0 c1.
    rewrite doSetWithLockCheck_eq, md_SetWithLock_dead by exact Hdead. fold ex.
    split; [|split].
    + intros r err Hf. rewrite Hf. destruct c, r; simpl; (split; [reflexivity | split; reflexivity]).
    + intros Hf. rewrite Hf. destruct c; simpl; (split; [reflexivity | split; reflexivity]).
    + intros r Hf Hnil. destruct (Set_state k r duration now c) as [_ HS]. rewrite HS. fold ex.
      rewrite Hf. destruct r; [congruence | reflexivity | reflexivity].
Qed.

Ltac Contains_case k now c :=
  rewrite deferred_touch, Contains_eq; simpl.

(** [SetIfNotExistFunc(k, f, d)]: on a hit it returns [false] without
    calling the producer or writing; on a miss the producer is called
    once, outside the lock: its error is returned with [false] and nothing
    written, and any plain result, nil included, is stored exactly as
    [Set(k, result, d)] stores it, with [true]. *)
Theorem SetIfNotExistFunc_spec (k : key) (f : unit → value * option error) (duration now : Z)
    (c : AdapterMemory) :
  (∀ w, (Get k now c).1.1 = Some w → lru_tracks c →
     (SetIfNotExistFunc k f duration now c).1.1 = (false, None) ∧
     (SetIfNotExistFunc k f duration now c).2 = [] ∧
     data (SetIfNotExistFunc k f duration now c).1.2 = data c ∧
     eventList (SetIfNotExistFunc k f duration now c).1.2 = eventList c ∧
     lru_tracks (SetIfNotExistFunc k f duration now c).1.2) ∧
  ((Get k now c).1.1 = None →
     (∀ r err, f tt = (r, Some err) →
        SetIfNotExistFunc k f duration now c =
          ((false, Some err), (handleLruKey [k] now c).1.2, [ProducerCalled])) ∧
     (∀ r, f tt = (r, None) → is_func r = false →
        SetIfNotExistFunc k f duration now c =
          ((true, None), (Set_ k r duration now c).1.2, [ProducerCalled]))).
Proof.
  split.
  - intros w Hw Htr. destruct (Get_hit k now c w Hw Htr) as [Hd [He [Ht Hs]]].
    unfold SetIfNotExistFunc. Contains_case k now c. rewrite Hw. unfold_M. simpl.
    destruct (touch_tracked k now (Get k now c).1.2 Ht Hs) as [Hd' [He' Ht']].
    split; [reflexivity|]. split; [reflexivity|].
    rewrite Hd', He', Hd, He. split; [reflexivity|]. split; [reflexivity | exact Ht'].
  - intros Hmiss. destruct (Get_miss k now c Hmiss) as [Hst Hdead].
    unfold SetIfNotExistFunc. Contains_case k now c. rewrite Hmiss, Hst.
    split.
    + intros r err Hf. unfold_M. simpl. rewrite Hf. destruct r; reflexivity.
    + intros r Hf Hr. destruct (Set_state k r duration now c) as [_ HS]. rewrite HS.
      unfold emit, mbind, M_bind. simpl. rewrite Hf.
      rewrite doSetWithLockCheck_eq, md_SetWithLock_dead by exact Hdead.
      destruct r as [| z | g]; [reflexivity | reflexivity | discriminate].
Qed.

(** [SetIfNotExistFuncLock(k, f, d)]: on a hit it returns [false] without
    calling the producer or writing; on a miss the producer is called
    once, under the lock: its error is returned with [false], a nil result
    gives [true] with nothing stored, and in both cases the expiry event
    [(k, getInternalExpire(d))] is still queued; any other result is
    stored exactly as [Set(k, result, d)] stores it, with [true]. *)
Theorem SetIfNotExistFuncLock_spec (k : key) (f : unit → value * option error) (duration now : Z)
    (c : AdapterMemory) :
  let ex := (getInternalExpire duration now c).1.1 in
  (∀ w, (Get k now c).1.1 = Some w → lru_tracks c →
     (SetIfNotExistFuncLock k f duration now c).1.1 = (false, None) ∧
     (SetIfNotExistFuncLock k f duration now c).2 = [] ∧
     data (SetIfNotExistFuncLock k f duration now c).1.2 = data c ∧
     eventList (SetIfNotExistFuncLock k f duration now c).1.2 = eventList c ∧
     lru_tracks (SetIfNotExistFuncLock k f duration now c).1.2) ∧
  ((Get k now c).1.1 = None →
     (∀ r err, f tt = (r, Some err) →
        SetIfNotExistFuncLock k f duration now c =
          ((false, Some err), (handleLruKey [k] now (with_events (eventList c ++ [(k, ex)]) c)).1.2,
           [ProducerCalled])) ∧
     (f tt = (VNil, None) →
        SetIfNotExistFuncLock k f duration now c =
          ((true, None), (handleLruKey [k] now (with_events (eventList c ++ [(k, ex)]) c)).1.2,
           [ProducerCalled])) ∧
     (∀ r, f tt = (r, None) → r ≠ VNil →
        SetIfNotExistFuncLock k f duration now c =
          ((true, None), (Set_ k r duration now c).1.2, [ProducerCalled]))).
Proof.
  intros ex. split.
  - intros w Hw Htr. destruct (Get_hit k now c w Hw Htr) as [Hd [He [Ht Hs]]].
    unfold SetIfNotExistFuncLock. Contains_case k now c. rewrite Hw. unfold_M. simpl.
    destruct (touch_tracked k now (Get k now c).1.2 Ht Hs) as [Hd' [He' Ht']].
    split; [reflexivity|]. split; [reflexivity|].
    rewrite Hd', He', Hd, He. split; [reflexivity|]. split; [reflexivity | exact Ht'].
  - intros Hmiss. destruct (Get_miss k now c Hmiss) as [Hst Hdead].
    unfold SetIfNotExistFuncLock. Contains_case k now c. rewrite Hmiss, Hst.
    unfold mbind, M_bind.
    rewrite doSetWithLockCheck_eq, md_SetWithLock_dead by exact Hdead. fold ex. simpl.
    split; [|split].
    + intros r err Hf. rewrite Hf. destruct c, r; reflexivity.
    + intros Hf. rewrite Hf. destruct c; reflexivity.
    + intros r Hf Hnil. destruct (Set_state k r duration now c) as [_ HS]. rewrite HS. fold ex.
      rewrite Hf. destruct r; [congruence | reflexivity | reflexivity].
Qed.

(** ** [memoryLru.SaveAndEvict] *)

Lemma doSaveAndEvict_evicted (l : memoryLru) (k x : key) :
  lru_wf l → (doSaveAndEvict l k).1 = Some x → x ∈ ldata l ∧ x ≠ k.
Proof.
  intros Hwf Hx. destruct (doSaveAndEvict_wf l k Hwf) as [_ [_ [_ [Hne _]]]].
  pose proof (Hne x Hx) as Hxk. split; [|exact Hxk].
  pose proof Hwf as [Hnd [Hmem [Hsz Hcap]]].
  unfold doSaveAndEvict in Hx. case_bool_decide as Hin.
  - case_bool_decide as Hhd; [discriminate|].
    assert (Hunion : {[k]} ∪ ldata l = ldata l) by set_solver.
    destruct (pushFront_spec l k (list_remove k (llist l))) as [_ [_ [_ Hcase]]].
    + exact Hcap.
    + constructor; [rewrite list_remove_elem by exact Hnd; naive_solver|].
      apply list_remove_NoDup, Hnd.
    + intros y. rewrite elem_of_cons, list_remove_elem by exact Hnd.
      rewrite elem_of_union, elem_of_singleton, Hmem.
      destruct (decide (y = k)); naive_solver.
    + rewrite Hunion. lia.
    + rewrite Hunion in Hcase. destruct Hcase as [[_ Heq] | [Hlt _]]; [|lia].
      rewrite Heq in Hx. discriminate.
  - destruct (pushFront_spec l k (llist l)) as [_ [_ [_ Hcase]]].
    + exact Hcap.
    + constructor; [rewrite <- Hmem; exact Hin | exact Hnd].
    + intros y. rewrite elem_of_cons, elem_of_union, elem_of_singleton, Hmem. reflexivity.
    + rewrite size_union by set_solver. rewrite size_singleton. lia.
    + destruct Hcase as [[_ Heq] | [_ [y [Hlast [Hyk Heq]]]]]; rewrite Heq in Hx; [discriminate|].
      injection Hx as <-. apply last_Some_elem_of in Hlast.
      rewrite elem_of_cons in Hlast. destruct Hlast as [->|Hy]; [congruence|].
      apply Hmem, Hy.
Qed.

(** [SaveAndEvict(keys...)] on a well-formed tracker: the tracker stays
    well formed with the same capacity; no key is lost silently (a key
    tracked before or saved now is still tracked or was returned as
    evicted, and nothing else is tracked or evicted); and the last saved
    key is at the front of the list, the most recently used. *)
Theorem SaveAndEvict_spec (l : memoryLru) (ks : list key) :
  lru_wf l →
  lru_wf (SaveAndEvict l ks).2 ∧ cap (SaveAndEvict l ks).2 = cap l ∧
  (∀ j, j ∈ ldata (SaveAndEvict l ks).2 ∨ j ∈ (SaveAndEvict l ks).1 ↔ j ∈ ldata l ∨ j ∈ ks) ∧
  (∀ k, last ks = Some k → head (llist (SaveAndEvict l ks).2) = Some k).
Proof.
  revert l. induction ks as [|k ks IH]; intros l Hwf; simpl.
  - split; [exact Hwf|]. split; [reflexivity|]. split; [set_solver|]. discriminate.
  - destruct (doSaveAndEvict_wf l k Hwf) as [Hwf1 [Hhd1 [Hcap1 _]]].
    pose proof (doSaveAndEvict_ldata l k Hwf) as Hld.
    pose proof (doSaveAndEvict_evicted l k) as Hev.
    destruct (doSaveAndEvict l k) as [ev l1] eqn:E. simpl in *.
    destruct (IH l1 Hwf1) as [Hwf2 [Hcap2 [Hun2 Hhd2]]].
    destruct (SaveAndEvict l1 ks) as [evs l2] eqn:E2. simpl in *.
    split; [exact Hwf2|]. split; [congruence|]. split.
    + intros j. assert (Hevj : ev = Some j → j ∈ ldata l) by (intros H; apply (Hev j Hwf H)).
      assert (Hstep : j ∈ ldata l1 ∨ ev = Some j ↔ j = k ∨ j ∈ ldata l).
      { rewrite Hld. destruct (decide (ev = Some j)); tauto. }
      rewrite elem_of_cons.
      specialize (Hun2 j). destruct ev as [x|].
      * rewrite elem_of_cons.
        assert (Hx : j = x ↔ Some x = Some j) by (split; [intros ->; reflexivity | congruence]).
        rewrite Hx. tauto.
      * assert (None ≠ Some j) by discriminate. tauto.
    + intros k' Hk'. destruct ks as [|k2 ks'].
      * simpl in Hk'. injection Hk' as <-. inversion E2; subst. exact Hhd1.
      * apply Hhd2. rewrite last_cons in Hk'. destruct (last (k2 :: ks')) eqn:Hl; [exact Hk'|].
        apply last_None in Hl. discriminate.
Qed.

Lemma SaveAndEvict_spec_witness :
  let l := {| cap := 2; ldata := {[1; 2]}; llist := [2; 1] |} in
  lru_wf l ∧
  lru_wf (SaveAndEvict l [3; 1]).2 ∧ cap (SaveAndEvict l [3; 1]).2 = cap l ∧
  (∀ j, j ∈ ldata (SaveAndEvict l [3; 1]).2 ∨ j ∈ (SaveAndEvict l [3; 1]).1 ↔ j ∈ ldata l ∨ j ∈ [3; 1]) ∧
  (∀ k, last [3; 1] = Some k → head (llist (SaveAndEvict l [3; 1]).2) = Some k).
Proof.
  intros l.
  assert (Hwf : lru_wf l).
  { subst l. unfold lru_wf. cbn [cap ldata llist].
    split; [apply (bool_decide_unpack _); vm_compute; exact I|].
    split; [intros x; set_solver|]. split; [vm_compute; intros H; discriminate | lia]. }
  split; [exact Hwf | apply (SaveAndEvict_spec l [3; 1] Hwf)].
Defined.

(** ** The sweep of [syncEventAndClearExpired] *)

Lemma forM_pure {A} (xs : list A) (g : A → M unit) (step : A → AdapterMemory → AdapterMemory)
    (now : Z) :
  (∀ x c, g x now c = (tt, step x c, [])) →
  ∀ c, forM_ xs g now c = (tt, fold_left (λ c x, step x c) xs c, []).
Proof.
  intros Hg. induction xs as [|x xs IH]; intros c; [reflexivity|].
  simpl. unfold_M. rewrite Hg, IH. reflexivity.
Qed.

Lemma fold_delete_lookup {V} (ks : list key) :
  ∀ (m : gmap key V) j,
  fold_left (λ m k, delete k m) ks m !! j = if bool_decide (j ∈ ks) then None else m !! j.
Proof.
  induction ks as [|k ks IH]; intros m j; simpl; [reflexivity|].
  rewrite IH. destruct (decide (j = k)) as [->|Hjk].
  - rewrite lookup_delete_eq. rewrite (bool_decide_eq_true_2 (k ∈ k :: ks)) by set_solver.
    destruct (bool_decide _); reflexivity.
  - rewrite lookup_delete_ne by congruence.
    case_bool_decide as H1; case_bool_decide as H2; try reflexivity; exfalso; set_solver.
Qed.

Lemma lru_Remove_app (l : memoryLru) (ks1 ks2 : list key) :
  lru_Remove l (ks1 ++ ks2) = lru_Remove (lru_Remove l ks1) ks2.
Proof. revert l. induction ks1 as [|k ks IH]; intros l; simpl; [reflexivity | apply IH]. Qed.

Lemma fold_sweep_key_step (ks : list key) :
  ∀ c, let c' := fold_left (λ c k, sweep_key_step k c) ks c in
  data c' = fold_left (λ m k, delete k m) ks (data c) ∧
  expireTimes c' = fold_left (λ m k, delete k m) ks (expireTimes c) ∧
  expireSets c' = expireSets c ∧
  lru c' = option_map (λ l, lru_Remove l ks) (lru c) ∧
  eventList c' = eventList c ∧ closed c' = closed c.
Proof.
  induction ks as [|k ks IH]; intros c; simpl.
  - destruct (lru c); repeat split; reflexivity.
  - destruct (IH (sweep_key_step k c)) as (Hd & Ht & Hs & Hl & He & Hc).
    rewrite Hd, Ht, Hs, Hl, He, Hc. unfold sweep_key_step. simpl.
    split; [reflexivity|]. split; [reflexivity|]. split; [reflexivity|].
    split; [|split; reflexivity].
    destruct (lru c); reflexivity.
Qed.

Lemma fold_sweep_bucket_step (bs : list Z) :
  NoDup bs → ∀ c, let c' := fold_left (λ c b, sweep_bucket_step b c) bs c in
  let sw := swept_of (expireSets c) bs in
  (∀ j, data c' !! j = if bool_decide (j ∈ sw) then None else data c !! j) ∧
  (∀ j, expireTimes c' !! j = if bool_decide (j ∈ sw) then None else expireTimes c !! j) ∧
  (∀ b, expireSets c' !! b = if bool_decide (b ∈ bs) then None else expireSets c !! b) ∧
  lru c' = option_map (λ l, lru_Remove l sw) (lru c) ∧
  eventList c' = eventList c ∧ closed c' = closed c.
Proof.
  induction bs as [|b bs IH]; intros Hnd c; simpl.
  - split; [intros j; reflexivity|]. split; [intros j; reflexivity|].
    split; [intros j; reflexivity|]. destruct (lru c); repeat split; reflexivity.
  - apply NoDup_cons in Hnd as [Hb Hnd].
    set (c1 := sweep_bucket_step b c).
    set (ks := match expireSets c !! b with Some s => elements s | None => [] end).
    assert (H1 : (∀ j, data c1 !! j = if bool_decide (j ∈ ks) then None else data c !! j) ∧
                 (∀ j, expireTimes c1 !! j = if bool_decide (j ∈ ks) then None else expireTimes c !! j) ∧
                 expireSets c1 = (if expireSets c !! b then delete b (expireSets c) else expireSets c) ∧
                 lru c1 = option_map (λ l, lru_Remove l ks) (lru c) ∧
                 eventList c1 = eventList c ∧ closed c1 = closed c).
    { unfold c1, ks, sweep_bucket_step. destruct (expireSets c !! b) as [s|].
      - destruct (fold_sweep_key_step (elements s) c) as (Hd & Ht & Hs & Hl & He & Hc).
        simpl. rewrite Hd, Ht, Hs, Hl, He, Hc.
        split; [intros j; apply fold_delete_lookup|]. split; [intros j; apply fold_delete_lookup|].
        split; [reflexivity|]. split; [reflexivity | split; reflexivity].
      - split; [intros j; reflexivity|]. split; [intros j; reflexivity|].
        split; [reflexivity|]. destruct (lru c); repeat split; reflexivity. }
    destruct H1 as (Hd1 & Ht1 & Hs1 & Hl1 & He1 & Hc1).
    assert (Hsw : swept_of (expireSets c1) bs = swept_of (expireSets c) bs).
    { unfold swept_of. f_equal. apply list_fmap_ext. intros i b' Hi.
      assert (b' ≠ b) by (intros ->; apply Hb; eapply list_elem_of_lookup_2; exact Hi).
      rewrite Hs1. destruct (expireSets c !! b); [|reflexivity].
      rewrite lookup_delete_ne by congruence. reflexivity. }
    destruct (IH Hnd c1) as (Hd & Ht & Hs & Hl & He & Hc). fold c1. rewrite Hsw in Hd, Ht, Hl.
    change (swept_of (expireSets c) (b :: bs)) with (ks ++ swept_of (expireSets c) bs).
    split; [|split; [|split; [|split; [|split]]]].
    + intros j. rewrite Hd, Hd1.
      repeat case_bool_decide; try reflexivity; exfalso; rewrite ?elem_of_app in *; tauto.
    + intros j. rewrite Ht, Ht1.
      repeat case_bool_decide; try reflexivity; exfalso; rewrite ?elem_of_app in *; tauto.
    + intros b'. rewrite Hs, Hs1. destruct (decide (b' = b)) as [->|Hne].
      * rewrite (bool_decide_eq_true_2 (b ∈ b :: bs)) by set_solver.
        rewrite (bool_decide_eq_false_2 (b ∈ bs)) by exact Hb.
        destruct (expireSets c !! b) eqn:Eb; [apply lookup_delete_eq | exact Eb].
      * assert (Hiff : b' ∈ b :: bs ↔ b' ∈ bs) by (rewrite elem_of_cons; naive_solver).
        rewrite (bool_decide_ext _ _ Hiff).
        destruct (bool_decide (b' ∈ bs)); [reflexivity|].
        destruct (expireSets c !! b); [apply lookup_delete_ne; congruence | reflexivity].
    + rewrite Hl, Hl1. destruct (lru c); simpl; [rewrite lru_Remove_app|]; reflexivity.
    + congruence.
    + congruence.
Qed.

Lemma syncEventAndClearExpired_eq (now : Z) (c : AdapterMemory) :
  syncEventAndClearExpired now c =
    if closed c then (tt, c, [])
    else
      let idx := drain (expireTimes c, expireSets c) (eventList c) in
      (tt, fold_left (λ c b, sweep_bucket_step b c)
             ((λ i, makeExpireKey now - i * 1000) <$> [1; 2; 3; 4; 5])
             (with_events [] (with_index idx.1 idx.2 c)), []).
Proof.
  unfold syncEventAndClearExpired. unfold_M. cbv beta.
  destruct (closed c); [reflexivity|].
  destruct (drain (expireTimes c, expireSets c) (eventList c)) as [times sets]. cbv beta iota.
  rewrite (forM_pure _ _ (λ i c, sweep_bucket_step (makeExpireKey now - i * 1000) c)).
  - reflexivity.
  - intros i c0. cbv beta. unfold sweep_bucket_step.
    destruct (expireSets c0 !! (makeExpireKey now - i * 1000)) as [s|]; [|reflexivity].
    rewrite (forM_pure _ _ sweep_key_step); [reflexivity|].
    intros k c1. reflexivity.
Qed.

(** [syncEventAndClearExpired]: on a closed adapter it changes nothing.
    Otherwise it drains the event list into the expiry index, then deletes
    every key of the five buckets before the current one (whatever expiry
    the stored item has) from the data map, the expiry index and the
    tracker, and deletes those buckets; nothing else is removed and no
    producer is called. *)
Theorem syncEventAndClearExpired_spec (now : Z) (c : AdapterMemory) :
  (closed c = true → syncEventAndClearExpired now c = (tt, c, [])) ∧
  (closed c = false →
     let idx := drain (expireTimes c, expireSets c) (eventList c) in
     let ek := makeExpireKey now in
     let sw := sweep_keys idx.2 ek in
     let c' := (syncEventAndClearExpired now c).1.2 in
     (syncEventAndClearExpired now c).2 = [] ∧
     (∀ j, data c' !! j = if bool_decide (j ∈ sw) then None else data c !! j) ∧
     (∀ j, expireTimes c' !! j = if bool_decide (j ∈ sw) then None else idx.1 !! j) ∧
     (∀ b, expireSets c' !! b =
        if bool_decide (b ∈ (λ i, ek - i * 1000) <$> [1; 2; 3; 4; 5]) then None else idx.2 !! b) ∧
     lru c' = option_map (λ l, lru_Remove l sw) (lru c) ∧
     eventList c' = [] ∧ closed c' = false).
Proof.
  rewrite syncEventAndClearExpired_eq. split; [intros ->; reflexivity|].
  intros Hc. rewrite Hc. intros idx ek sw.
  assert (Hnd : NoDup ((λ i, ek - i * 1000) <$> [1; 2; 3; 4; 5])).
  { simpl. repeat (constructor; [rewrite ?elem_of_cons, ?elem_of_nil; lia|]). constructor. }
  destruct (fold_sweep_bucket_step _ Hnd (with_events [] (with_index idx.1 idx.2 c)))
    as (Hd & Ht & Hs & Hl & He & Hcl).
  change (swept_of (expireSets (with_events [] (with_index idx.1 idx.2 c)))
            ((λ i, ek - i * 1000) <$> [1; 2; 3; 4; 5])) with sw in Hd, Ht, Hl.
  cbn [fst snd]. split; [reflexivity|].
  split; [exact Hd|]. split; [exact Ht|]. split; [exact Hs|].
  split; [exact Hl|]. split; [exact He | exact (eq_trans Hcl Hc)].
Qed.

(** ** The drain phase and the expiry times *)

Lemma drain_step_times (idx : gmap key Z * gmap Z (gset key)) (ev : key * Z) (k : key) :
  makeExpireKey ev.2 ≠ 0 →
  (drain_step idx ev).1 !! k = if decide (ev.1 = k) then Some (makeExpireKey ev.2) else idx.1 !! k.
Proof.
  intros Hnz. destruct idx as [times sets], ev as [k0 ex]. simpl in *. unfold drain_step.
  destruct (decide (makeExpireKey ex = et_Get times k0)) as [Heq|Hne]; simpl.
  - destruct (decide (k0 = k)) as [<-|]; [|reflexivity].
    unfold et_Get in Heq. destruct (times !! k0) as [x|]; simpl in Heq; [congruence|].
    exfalso. exact (Hnz Heq).
  - destruct (decide (k0 = k)) as [<-|Hk]; [apply lookup_insert_eq|].
    apply lookup_insert_ne. exact Hk.
Qed.

(** After the drain phase, every key that had events is indexed under the
    bucket [makeExpireKey] of its last event, and every other key keeps
    its expiry time; provided no event falls in bucket 0. *)
Theorem drain_expireTimes (idx : gmap key Z * gmap Z (gset key)) (events : list (key * Z)) :
  (∀ ev, ev ∈ events → makeExpireKey ev.2 ≠ 0) →
  ∀ k, (drain idx events).1 !! k =
    match last (filter (λ ev : key * Z, ev.1 = k) events) with
    | Some ev => Some (makeExpireKey ev.2)
    | None => idx.1 !! k
    end.
Proof.
  unfold drain. revert idx. induction events as [|ev evs IH]; intros idx Hnz k; [reflexivity|].
  simpl. rewrite IH by (intros ev' Hev'; apply Hnz; right; exact Hev').
  rewrite filter_cons. rewrite drain_step_times by (apply Hnz; left).
  destruct (decide (ev.1 = k)); rewrite ?last_cons; destruct (last (filter _ evs)); reflexivity.
Qed.

Lemma drain_expireTimes_witness :
  (∀ ev, ev ∈ [(1, 1500); (2, 2500); (1, 7200)] → makeExpireKey ev.2 ≠ 0) ∧
  ∀ k, (drain (∅, ∅) [(1, 1500); (2, 2500); (1, 7200)]).1 !! k =
    match last (filter (λ ev : key * Z, ev.1 = k) [(1, 1500); (2, 2500); (1, 7200)]) with
    | Some ev => Some (makeExpireKey ev.2)
    | None => (∅ : gmap key Z) !! k
    end.
Proof.
  assert (H : ∀ ev, ev ∈ [(1, 1500); (2, 2500); (1, 7200)] → makeExpireKey ev.2 ≠ 0).
  { intros ev Hev. rewrite !elem_of_cons, elem_of_nil in Hev.
    destruct Hev as [->|[->|[->|[]]]]; vm_compute; discriminate. }
  split; [exact H | apply (drain_expireTimes (∅, ∅) _ H)].
Defined.

(** ** [Get] never writes *)

(** [Get(k)] returns the value of a live item and nil otherwise. On a miss
    it changes nothing; on a hit of a cache whose tracker tracks every
    key, the data map and the event list are unchanged, and [k] becomes
    the most recently used key of the tracker. *)
Theorem Get_spec (k : key) (now : Z) (c : AdapterMemory) :
  (Get k now c).2 = [] ∧
  (Get k now c).1.1 =
    match data c !! k with
    | Some item => if IsExpired item now then None else Some (v item)
    | None => None
    end ∧
  ((Get k now c).1.1 = None → (Get k now c).1.2 = c) ∧
  (∀ w, (Get k now c).1.1 = Some w → lru_tracks c →
     data (Get k now c).1.2 = data c ∧ eventList (Get k now c).1.2 = eventList c ∧
     lru_tracks (Get k now c).1.2 ∧
     ∀ l, lru (Get k now c).1.2 = Some l → head (llist l) = Some k).
Proof.
  split; [apply Get_trace|]. split.
  { rewrite Get_result. destruct (data c !! k) as [item|]; [|reflexivity].
    destruct (IsExpired item now); reflexivity. }
  split; [intros Hm; apply (Get_miss k now c Hm)|].
  intros w Hw Htr. destruct (Get_hit k now c w Hw Htr) as [Hd [He [Ht _]]].
  split; [exact Hd|]. split; [exact He|]. split; [exact Ht|].
  intros l Hl. rewrite Get_result in Hw. rewrite Get_state in Hl.
  destruct (data c !! k) as [item|]; [|discriminate].
  destruct (negb (IsExpired item now)); [|discriminate].
  destruct (handleLruKey_touch k now c) as [_ [_ Hhd]].
  { intros l0 Hl0. unfold lru_tracks in Htr. rewrite Hl0 in Htr. apply Htr. }
  rewrite Hl in Hhd. apply Hhd.
Qed.

(** ** The [Must*] read-or-write wrappers *)

Lemma must_result {A} (m : M (A * option error)) (now : Z) (c : AdapterMemory) :
  (must m now c).1.1 = match (m now c).1.1.2 with
                       | Some err => Panicked err
                       | None => Returned (m now c).1.1.1
                       end.
Proof.
  unfold must. unfold_M. destruct (m now c) as [[[a r] c1] t1]. simpl.
  destruct r; reflexivity.
Qed.

Lemma GetOrSet_family_hit (k now : Z) (c : AdapterMemory) (w : value) (duration : Z)
    (val : value) (f : unit → value * option error) :
  (Get k now c).1.1 = Some w →
  (GetOrSet k val duration now c).1.1 = (Some w, None) ∧
  (GetOrSetFunc k f duration now c).1.1 = (Some w, None) ∧
  (GetOrSetFuncLock k f duration now c).1.1 = (Some w, None).
Proof.
  intros Hw. unfold GetOrSet, GetOrSetFunc, GetOrSetFuncLock.
  rewrite !deferred_touch. destruct (Get k now c) as [[r0 c1] t1]. simpl in Hw. subst r0.
  split; [|split]; reflexivity.
Qed.

(** The [Must*] forms of the read-or-write operations never panic on a
    hit. On a miss, [MustGetOrSetFunc] and [MustGetOrSetFuncLock] panic
    with the producer's error and do not panic on a plain result, and
    [MustGetOrSet] panics when the value given is itself a
    producer that fails. *)
Theorem MustGetOrSet_family_panics (k : key) (now duration : Z) (c : AdapterMemory)
    (val : value) (f : unit → value * option error) :
  (∀ w, (Get k now c).1.1 = Some w →
     (MustGetOrSet k val duration now c).1.1 = Returned (Some w) ∧
     (MustGetOrSetFunc k f duration now c).1.1 = Returned (Some w) ∧
     (MustGetOrSetFuncLock k f duration now c).1.1 = Returned (Some w)) ∧
  ((Get k now c).1.1 = None →
     (∀ r err, f tt = (r, Some err) →
        (MustGetOrSetFunc k f duration now c).1.1 = Panicked err ∧
        (MustGetOrSetFuncLock k f duration now c).1.1 = Panicked err ∧
        (MustGetOrSet k (VFunc f) duration now c).1.1 = Panicked err) ∧
     (f tt = (VNil, None) →
        (MustGetOrSetFunc k f duration now c).1.1 = Returned None ∧
        ∀ err, (MustGetOrSetFuncLock k f duration now c).1.1 ≠ Panicked err) ∧
     (∀ r, f tt = (r, None) → r ≠ VNil → is_func r = false →
        (MustGetOrSetFunc k f duration now c).1.1 = Returned (Some r) ∧
        (MustGetOrSetFuncLock k f duration now c).1.1 = Returned (Some r) ∧
        (MustGetOrSet k (VFunc f) duration now c).1.1 = Returned (Some r)) ∧
     (is_func val = false → (MustGetOrSet k val duration now c).1.1 = Returned (Some val))).
Proof.
  unfold MustGetOrSet, MustGetOrSetFunc, MustGetOrSetFuncLock. rewrite !must_result.
  split.
  { intros w Hw. destruct (GetOrSet_family_hit k now c w duration val f Hw) as (H1 & H2 & H3).
    rewrite H1, H2, H3. split; [|split]; reflexivity. }
  intros Hmiss. destruct (Get_miss k now c Hmiss) as [Hst Hdead].
  assert (Hlock : ∀ g, (GetOrSetFuncLock k g duration now c).1.1 =
                       (GetOrSet k (VFunc g) duration now c).1.1).
  { intros g. unfold GetOrSetFuncLock, GetOrSet. rewrite !deferred_touch.
    destruct (Get k now c) as [[r0 c1] t1]. simpl in Hmiss. subst r0. reflexivity. }
  assert (HS : ∀ v0, (GetOrSet k v0 duration now c).1.1 =
                     (gvar_New (md_SetWithLock now (data c) k v0
                                  (getInternalExpire duration now c).1.1).1.1.1,
                      (md_SetWithLock now (data c) k v0 (getInternalExpire duration now c).1.1).1.1.2)).
  { intros v0. unfold GetOrSet. Get_case k now c. subst r0 c1.
    rewrite doSetWithLockCheck_eq. reflexivity. }
  assert (HF : (GetOrSetFunc k f duration now c).1.1 =
               match f tt with
               | (_, Some err) => (None, Some err)
               | (VNil, None) => (None, None)
               | (r, None) => (GetOrSet k r duration now c).1.1
               end).
  { unfold GetOrSetFunc. Get_case k now c. subst r0 c1.
    unfold emit, mbind, M_bind. simpl.
    destruct (f tt) as [r [err|]]; [destruct r; reflexivity|].
    destruct r; [reflexivity | |]; rewrite HS, doSetWithLockCheck_eq; reflexivity. }
  rewrite !Hlock, HF, !HS, !md_SetWithLock_dead by exact Hdead.
  split; [|split; [|split]].
  - intros r err Hf. rewrite Hf. destruct r; (split; [|split]); reflexivity.
  - intros Hf. rewrite Hf. split; [reflexivity | discriminate].
  - intros r Hf Hnil Hr. rewrite Hf. rewrite HS, md_SetWithLock_dead by exact Hdead.
    destruct r; [congruence | | discriminate]; (split; [|split]); reflexivity.
  - intros Hv. destruct val; [reflexivity | reflexivity | discriminate].
Qed.
